(** * LG soundbar media player: a shallow embedding of
    [homeassistant/components/lg_soundbar/media_player.py]

    The entity [LGDevice] keeps the last known state of one soundbar in its
    attributes, merges the events pushed by the device into them
    ([handle_event]) and turns the platform's commands into requests to the
    [temescal] library.  Python values, dictionaries, exceptions and the
    binary64 arithmetic of [float] are modelled explicitly. *)

From Stdlib Require Import ZArith Bool Lia SpecFloat.
From stdpp Require Import base option list gmap strings sorting.

Local Open Scope Z_scope.

(** ** Python values *)

Module Py.

(** Exceptions the modelled code can raise. *)
Inductive exn : Type :=
| KeyError (key : string)
| ValueError
| TypeError
| IndexError
| AttributeError
| OverflowError
| ZeroDivisionError
| OSError.

(** The result of evaluating an expression: a value, or a raised
    exception. *)
Inductive outcome (A : Type) : Type :=
| Return (a : A)
| Raise (e : exn).
Arguments Return {A} a.
Arguments Raise {A} e.

(** Values found in a decoded JSON payload and in the attributes of the
    entity: [None], [bool], [int], [float] (binary64), [str] and [list].
    A [str] is a sequence of characters with code below 256; nested JSON
    objects are not needed by any operation of the module and are left
    out. *)
#[warnings="-register-all"]
Inductive value : Type :=
| PNone
| PBool (b : bool)
| PInt (z : Z)
| PFloat (f : spec_float)
| PStr (s : string)
| PList (l : list value).

(** A [dict] with [str] keys. *)
Abbreviation dict := (gmap string value).

(** *** binary64 *)

Definition prec : Z := 53.
Definition emax : Z := 1024.

Definition fmul : spec_float -> spec_float -> spec_float := SFmul prec emax.
Definition fdiv : spec_float -> spec_float -> spec_float := SFdiv prec emax.
Definition fleb : spec_float -> spec_float -> bool := SFleb.
Definition fzero : spec_float := S754_zero false.
Definition fone : spec_float := Eval cbv in SFone prec emax.

(** The exact integer [z] as an (unnormalised) float datum. *)
Definition float_exact (z : Z) : spec_float :=
  match z with
  | Z0 => S754_zero false
  | Zpos p => S754_finite false p 0
  | Zneg p => S754_finite true p 0
  end.

Definition is_inf (f : spec_float) : bool :=
  match f with S754_infinity _ => true | _ => false end.

Definition is_fzero (f : spec_float) : bool :=
  match f with S754_zero _ => true | _ => false end.

(** [float(z)]: the nearest binary64, ties to even; [OverflowError] when
    [z] is too large. *)
Definition float_of_int (z : Z) : outcome spec_float :=
  let f := binary_normalize prec emax z 0 false in
  if is_inf f then Raise OverflowError else Return f.

(** [int(f)]: truncation toward zero. *)
Definition int_of_float (f : spec_float) : outcome Z :=
  match f with
  | S754_zero _ => Return 0
  | S754_infinity _ => Raise OverflowError
  | S754_nan => Raise ValueError
  | S754_finite s m e =>
      let a := match e with
               | Zneg k => Z.shiftr (Zpos m) (Zpos k)
               | _ => Z.shiftl (Zpos m) e
               end in
      Return (if s then - a else a)
  end.

(** Exact comparison of a float with an integer; [None] for a NaN. *)
Definition fcompare_int (f : spec_float) (z : Z) : option comparison :=
  match f with
  | S754_nan => None
  | S754_infinity s => Some (if s then Lt else Gt)
  | S754_zero _ => Some (0 ?= z)
  | S754_finite s m e =>
      let sm := if s then Zneg m else Zpos m in
      Some match e with
           | Zneg k => sm ?= Z.shiftl z (Zpos k)
           | _ => Z.shiftl sm e ?= z
           end
  end.

(** *** Operators *)

Definition int_of_bool (b : bool) : Z := if b then 1 else 0.

(** Truth value, as tested by [if v:]. *)
Definition truthy (v : value) : bool :=
  match v with
  | PNone => false
  | PBool b => b
  | PInt z => negb (z =? 0)
  | PFloat f => negb (is_fzero f)
  | PStr s => negb (String.eqb s "")
  | PList l => match l with [] => false | _ => true end
  end.

(** The three-way comparison of a value with an [int]: [None] when the
    value is not a number, [Some None] for a NaN. *)
Definition compare_int (v : value) (n : Z) : option (option comparison) :=
  match v with
  | PBool b => Some (Some (int_of_bool b ?= n))
  | PInt z => Some (Some (z ?= n))
  | PFloat f => Some (fcompare_int f n)
  | _ => None
  end.

(** [v == n] for an [int] literal [n]: values of other types are unequal. *)
Definition eq_int (v : value) (n : Z) : bool :=
  match compare_int v n with
  | Some (Some Eq) => true
  | _ => false
  end.

(** [v != n]. *)
Definition ne_int (v : value) (n : Z) : bool := negb (eq_int v n).

(** [v < n]: ordering a non-number against an [int] is a [TypeError]. *)
Definition lt_int (v : value) (n : Z) : outcome bool :=
  match compare_int v n with
  | Some (Some Lt) => Return true
  | Some _ => Return false
  | None => Raise TypeError
  end.

(** [v >= n]. *)
Definition ge_int (v : value) (n : Z) : outcome bool :=
  match compare_int v n with
  | Some (Some (Gt | Eq)) => Return true
  | Some _ => Return false
  | None => Raise TypeError
  end.

(** A number as a float operand. *)
Definition to_float (v : value) : outcome spec_float :=
  match v with
  | PBool b => float_of_int (int_of_bool b)
  | PInt z => float_of_int z
  | PFloat f => Return f
  | _ => Raise TypeError
  end.

Definition as_int (v : value) : option Z :=
  match v with
  | PBool b => Some (int_of_bool b)
  | PInt z => Some z
  | _ => None
  end.

(** [a / b] on two [int]s: the correctly rounded quotient. *)
Definition int_truediv (a b : Z) : outcome value :=
  if b =? 0 then Raise ZeroDivisionError
  else
    let q := fdiv (float_exact a) (float_exact b) in
    if is_inf q then Raise OverflowError else Return (PFloat q).

Definition is_number (v : value) : bool :=
  match v with
  | PBool _ | PInt _ | PFloat _ => true
  | _ => false
  end.

(** [a / b]: [int / int] is computed on the integers, every other pair of
    numbers on their floats; anything else is a [TypeError]. *)
Definition truediv (a b : value) : outcome value :=
  if negb (is_number a && is_number b) then Raise TypeError
  else
    match as_int a, as_int b with
    | Some x, Some y => int_truediv x y
    | _, _ =>
        match to_float a with
        | Raise e => Raise e
        | Return x =>
            match to_float b with
            | Raise e => Raise e
            | Return y =>
                if is_fzero y then Raise ZeroDivisionError
                else Return (PFloat (fdiv x y))
            end
        end
    end.

(** [f * b] for a [float] [f]. *)
Definition float_mul (f : spec_float) (b : value) : outcome spec_float :=
  match to_float b with
  | Raise e => Raise e
  | Return y => Return (fmul f y)
  end.

(** [iter(v)] run to the end: the items of a [list], the characters of a
    [str]. *)
Definition items (v : value) : outcome (list value) :=
  match v with
  | PList l => Return l
  | PStr s =>
      Return ((fun c => PStr (String c EmptyString)) <$> String.list_ascii_of_string s)
  | _ => Raise TypeError
  end.

(** [xs[i]] on a [list]: an [int] index, negative ones counting from the
    end. *)
Definition list_getitem {A} (xs : list A) (i : value) : outcome A :=
  match as_int i with
  | None => Raise TypeError
  | Some z =>
      let len := Z.of_nat (length xs) in
      let k := if z <? 0 then z + len else z in
      if (k <? 0) || (len <=? k) then Raise IndexError
      else match xs !! Z.to_nat k with
           | Some x => Return x
           | None => Raise IndexError
           end
  end.

(** [xs.index(x)]: the first position of [x], [ValueError] when absent. *)
Fixpoint list_index (xs : list string) (x : string) : outcome Z :=
  match xs with
  | [] => Raise ValueError
  | y :: ys =>
      if decide (y = x) then Return 0
      else match list_index ys x with
           | Return i => Return (Z.succ i)
           | Raise e => Raise e
           end
  end.

(** [key in d] and [d[key]]. *)
Definition contains (d : dict) (key : string) : bool :=
  bool_decide (is_Some (d !! key)).

Definition getitem (d : dict) (key : string) : outcome value :=
  match d !! key with
  | Some v => Return v
  | None => Raise (KeyError key)
  end.

(** [sorted(xs)] on a list of [str]. *)
Definition sorted (xs : list string) : list string := merge_sort String.le xs.

End Py.

Import Py.

(** ** The entity *)

(** [MediaPlayerState]: the two members the module assigns. *)
Module MediaPlayerState.
Inductive t : Type := ON | OFF.
End MediaPlayerState.

(** Requests made on the [temescal] connection object, in the order of the
    calls. *)
Inductive request : Type :=
| get_product_info
| get_mac_info
| get_eq
| get_info
| get_func
| get_settings
| set_volume (volume : Z)
| set_mute (mute : bool)
| set_func (index : Z)
| set_eq (index : Z)
| send_packet (cmd : string) (data : dict) (msg : string).

(** The connection object: the requests it was asked to send, oldest
    first. *)
Record temescal : Type := { requests : list request }.

(** The attributes of an [LGDevice] instance.  [_attr_name] is the one
    attribute the constructor does not assign: it holds [None] while the
    instance has no such attribute. *)
Record LGDevice : Type := {
  _host : value;
  _port : value;
  _attr_unique_id : value;
  _volume : value;
  _volume_min : value;
  _volume_max : value;
  _function : value;
  _functions : value;
  _equaliser : value;
  _equalisers : value;
  _mute : value;
  _rear_volume : value;
  _rear_volume_min : value;
  _rear_volume_max : value;
  _woofer_volume : value;
  _woofer_volume_min : value;
  _woofer_volume_max : value;
  _bass : value;
  _treble : value;
  _attr_name : option value;
  _attr_state : MediaPlayerState.t;
  _device : option temescal
}.

(** The names of the attributes the constructor assigns a Python value
    to. *)
Inductive attr : Type :=
| A_host | A_port | A_attr_unique_id
| A_volume | A_volume_min | A_volume_max
| A_function | A_functions | A_equaliser | A_equalisers
| A_mute
| A_rear_volume | A_rear_volume_min | A_rear_volume_max
| A_woofer_volume | A_woofer_volume_min | A_woofer_volume_max
| A_bass | A_treble.

#[global] Instance attr_eq_dec : EqDecision attr.
Proof. solve_decision. Defined.

(** [self.a] *)
Definition getattr (a : attr) (d : LGDevice) : value :=
  match a with
  | A_host => _host d
  | A_port => _port d
  | A_attr_unique_id => _attr_unique_id d
  | A_volume => _volume d
  | A_volume_min => _volume_min d
  | A_volume_max => _volume_max d
  | A_function => _function d
  | A_functions => _functions d
  | A_equaliser => _equaliser d
  | A_equalisers => _equalisers d
  | A_mute => _mute d
  | A_rear_volume => _rear_volume d
  | A_rear_volume_min => _rear_volume_min d
  | A_rear_volume_max => _rear_volume_max d
  | A_woofer_volume => _woofer_volume d
  | A_woofer_volume_min => _woofer_volume_min d
  | A_woofer_volume_max => _woofer_volume_max d
  | A_bass => _bass d
  | A_treble => _treble d
  end.

(** [self.a = v] *)
Definition setattr (a : attr) (v : value) (d : LGDevice) : LGDevice :=
  let new b := if decide (a = b) then v else getattr b d in
  {| _host := new A_host;
     _port := new A_port;
     _attr_unique_id := new A_attr_unique_id;
     _volume := new A_volume;
     _volume_min := new A_volume_min;
     _volume_max := new A_volume_max;
     _function := new A_function;
     _functions := new A_functions;
     _equaliser := new A_equaliser;
     _equalisers := new A_equalisers;
     _mute := new A_mute;
     _rear_volume := new A_rear_volume;
     _rear_volume_min := new A_rear_volume_min;
     _rear_volume_max := new A_rear_volume_max;
     _woofer_volume := new A_woofer_volume;
     _woofer_volume_min := new A_woofer_volume_min;
     _woofer_volume_max := new A_woofer_volume_max;
     _bass := new A_bass;
     _treble := new A_treble;
     _attr_name := _attr_name d;
     _attr_state := _attr_state d;
     _device := _device d |}.

(** [self._attr_state = s] *)
Definition set_attr_state (s : MediaPlayerState.t) (d : LGDevice) : LGDevice :=
  {| _host := _host d;
     _port := _port d;
     _attr_unique_id := _attr_unique_id d;
     _volume := _volume d;
     _volume_min := _volume_min d;
     _volume_max := _volume_max d;
     _function := _function d;
     _functions := _functions d;
     _equaliser := _equaliser d;
     _equalisers := _equalisers d;
     _mute := _mute d;
     _rear_volume := _rear_volume d;
     _rear_volume_min := _rear_volume_min d;
     _rear_volume_max := _rear_volume_max d;
     _woofer_volume := _woofer_volume d;
     _woofer_volume_min := _woofer_volume_min d;
     _woofer_volume_max := _woofer_volume_max d;
     _bass := _bass d;
     _treble := _treble d;
     _attr_name := _attr_name d;
     _attr_state := s;
     _device := _device d |}.

(** [self._device = t] *)
Definition set_device (t : option temescal) (d : LGDevice) : LGDevice :=
  {| _host := _host d;
     _port := _port d;
     _attr_unique_id := _attr_unique_id d;
     _volume := _volume d;
     _volume_min := _volume_min d;
     _volume_max := _volume_max d;
     _function := _function d;
     _functions := _functions d;
     _equaliser := _equaliser d;
     _equalisers := _equalisers d;
     _mute := _mute d;
     _rear_volume := _rear_volume d;
     _rear_volume_min := _rear_volume_min d;
     _rear_volume_max := _rear_volume_max d;
     _woofer_volume := _woofer_volume d;
     _woofer_volume_min := _woofer_volume_min d;
     _woofer_volume_max := _woofer_volume_max d;
     _bass := _bass d;
     _treble := _treble d;
     _attr_name := _attr_name d;
     _attr_state := _attr_state d;
     _device := t |}.

(** [self._attr_name = v] *)
Definition set_attr_name (v : value) (d : LGDevice) : LGDevice :=
  {| _host := _host d;
     _port := _port d;
     _attr_unique_id := _attr_unique_id d;
     _volume := _volume d;
     _volume_min := _volume_min d;
     _volume_max := _volume_max d;
     _function := _function d;
     _functions := _functions d;
     _equaliser := _equaliser d;
     _equalisers := _equalisers d;
     _mute := _mute d;
     _rear_volume := _rear_volume d;
     _rear_volume_min := _rear_volume_min d;
     _rear_volume_max := _rear_volume_max d;
     _woofer_volume := _woofer_volume d;
     _woofer_volume_min := _woofer_volume_min d;
     _woofer_volume_max := _woofer_volume_max d;
     _bass := _bass d;
     _treble := _treble d;
     _attr_name := Some v;
     _attr_state := _attr_state d;
     _device := _device d |}.

(** Modelled from the spec: display_name is a string or unset, and a new
    snapshot has it unset.  The constructor does not assign [_attr_name]
    and the module gives the class no such attribute, so a new instance has
    none.  [_attr_state] starts as the class attribute of the module,
    [_attr_state = MediaPlayerState.ON].

    [LGDevice.__init__(host, port, unique_id)] *)
Definition __init__ (host port unique_id : value) : LGDevice :=
  {| _host := host;
     _port := port;
     _attr_unique_id := unique_id;
     _volume := PInt 0;
     _volume_min := PInt 0;
     _volume_max := PInt 0;
     _function := PInt (-1);
     _functions := PList [];
     _equaliser := PInt (-1);
     _equalisers := PList [];
     _mute := PInt 0;
     _rear_volume := PInt 0;
     _rear_volume_min := PInt 0;
     _rear_volume_max := PInt 0;
     _woofer_volume := PInt 0;
     _woofer_volume_min := PInt 0;
     _woofer_volume_max := PInt 0;
     _bass := PInt 0;
     _treble := PInt 0;
     _attr_name := None;
     _attr_state := MediaPlayerState.ON;
     _device := None |}.

(** ** Methods *)

(** What a method acts on: the instance, and the number of state writes it
    has asked the platform for ([schedule_update_ha_state]). *)
Record state : Type := {
  self : LGDevice;
  scheduled_updates : nat
}.

(** A method body: it may change the state and then returns or raises.
    What was assigned before an exception stays assigned. *)
Definition M (A : Type) : Type := state -> state * outcome A.

#[global] Instance M_ret : MRet M := fun A a st => (st, Return a).

#[global] Instance M_bind : MBind M := fun A B f m st =>
  match m st with
  | (st', Return a) => f a st'
  | (st', Raise e) => (st', Raise e)
  end.

#[global] Instance outcome_ret : MRet outcome := fun A a => Return a.

#[global] Instance outcome_bind : MBind outcome := fun A B f o =>
  match o with
  | Return a => f a
  | Raise e => Raise e
  end.

(** An expression evaluated inside a method. *)
Definition eval {A} (o : outcome A) : M A := fun st => (st, o).

(** The state a method leaves, whether it returned or raised. *)
Definition exec {A} (m : M A) (st : state) : state := fst (m st).

(** How a method ended. *)
Definition result {A} (m : M A) (st : state) : outcome A := snd (m st).

Definition read (a : attr) : M value :=
  fun st => (st, Return (getattr a (self st))).

Definition assign (a : attr) (v : value) : M unit :=
  fun st =>
    ({| self := setattr a v (self st);
        scheduled_updates := scheduled_updates st |}, Return ()).

Definition assign_attr_state (s : MediaPlayerState.t) : M unit :=
  fun st =>
    ({| self := set_attr_state s (self st);
        scheduled_updates := scheduled_updates st |}, Return ()).

Definition assign_device (t : option temescal) : M unit :=
  fun st =>
    ({| self := set_device t (self st);
        scheduled_updates := scheduled_updates st |}, Return ()).

(** [self._attr_name]: reading an attribute the instance does not have
    raises. *)
Definition read_attr_name : M value :=
  fun st =>
    match _attr_name (self st) with
    | Some v => (st, Return v)
    | None => (st, Raise AttributeError)
    end.

Definition assign_attr_name (v : value) : M unit :=
  fun st =>
    ({| self := set_attr_name v (self st);
        scheduled_updates := scheduled_updates st |}, Return ()).

(** [self._device.method]: looking a method up on [None] raises. *)
Definition device : M temescal :=
  fun st =>
    match _device (self st) with
    | Some t => (st, Return t)
    | None => (st, Raise AttributeError)
    end.

(** The call of a method of the connection object: one more request. *)
Definition call (t : temescal) (r : request) : M unit :=
  assign_device (Some {| requests := requests t ++ [r] |}).

(** [temescal.temescal(host, port=port, callback=self.handle_event)]: the
    constructor of the protocol library opens the connection to
    [host:port].  Whether that succeeds is decided by the network, not by
    the module, so the answer [open] is a parameter: the constructor raises
    what [open host port] raises, or returns a new connection object, on
    which no request was made yet. *)
Definition temescal_new (open : value -> value -> outcome ())
  (host port : value) : M temescal :=
  eval (open host port);; mret {| requests := [] |}.

(** [self.schedule_update_ha_state()] *)
Definition schedule_update_ha_state : M unit :=
  fun st =>
    ({| self := self st;
        scheduled_updates := S (scheduled_updates st) |}, Return ()).

(** A message delivered to the callback: [response["msg"]] and
    [response["data"]]. *)
Record response : Type := { msg : string; data : dict }.

Section Methods.

(** [temescal.functions] and [temescal.equalisers], the name tables of the
    protocol library. *)
Variables functions equalisers : list string.

(** [LGDevice.update] *)
Definition update : M unit :=
  t ← device; call t get_eq;;
  t ← device; call t get_info;;
  t ← device; call t get_func;;
  t ← device; call t get_settings.

(** [LGDevice._connect], for the answer [open] of the network. *)
Definition _connect (open : value -> value -> outcome ()) : M unit :=
  host ← read A_host;
  port ← read A_port;
  t ← temescal_new open host port;
  assign_device (Some t);;
  t ← device; call t get_product_info;;
  t ← device; call t get_mac_info;;
  update.

(** [LGDevice.get_value] *)
Definition get_value (data : dict) (key : string) (default_value : value)
  : M value :=
  if contains data key then eval (getitem data key) else mret default_value.

(** [self.a = self.get_value(data, key, self.a)] *)
Definition assign_get_value (a : attr) (data : dict) (key : string) : M unit :=
  default_value ← read a;
  v ← get_value data key default_value;
  assign a v.

(** [LGDevice.handle_eq_view_info_event] *)
Definition handle_eq_view_info_event (data : dict) : M unit :=
  assign_get_value A_bass data "i_bass";;
  assign_get_value A_treble data "i_treble";;
  assign_get_value A_equalisers data "ai_eq_list";;
  assign_get_value A_equaliser data "i_curr_eq".

(** [LGDevice.handle_spk_list_view_info_event] *)
Definition handle_spk_list_view_info_event (data : dict) : M unit :=
  assign_get_value A_volume data "i_vol";;
  assign_get_value A_volume_min data "i_vol_min";;
  assign_get_value A_volume_max data "i_vol_max";;
  assign_get_value A_function data "i_curr_func";;
  if contains data "b_powerstatus" then
    status ← eval (getitem data "b_power_status");
    if truthy status then assign_attr_state MediaPlayerState.ON
    else assign_attr_state MediaPlayerState.OFF
  else mret ().

(** [LGDevice.handle_func_view_info_event] *)
Definition handle_func_view_info_event (data : dict) : M unit :=
  assign_get_value A_function data "i_curr_func";;
  assign_get_value A_functions data "ai_func_list".

(** [LGDevice.handle_setting_view_info_event] *)
Definition handle_setting_view_info_event (data : dict) : M unit :=
  assign_get_value A_rear_volume_min data "i_rear_min";;
  assign_get_value A_rear_volume_max data "i_rear_max";;
  assign_get_value A_rear_volume data "i_rear_level";;
  assign_get_value A_woofer_volume_min data "i_woofer_min";;
  assign_get_value A_woofer_volume_max data "i_woofer_max";;
  assign_get_value A_woofer_volume data "i_woofer_level";;
  assign_get_value A_equaliser data "i_curr_eq";;
  default_value ← read_attr_name;
  v ← get_value data "s_user_name" default_value;
  assign_attr_name v.

(** [LGDevice.handle_event] *)
Definition handle_event (response : response) : M unit :=
  let data := data response in
  (if String.eqb (msg response) "EQ_VIEW_INFO" then
     handle_eq_view_info_event data
   else if String.eqb (msg response) "SPK_LIST_VIEW_INFO" then
     handle_spk_list_view_info_event data
   else if String.eqb (msg response) "FUNC_VIEW_INFO" then
     handle_func_view_info_event data
   else if String.eqb (msg response) "SETTING_VIEW_INFO" then
     handle_setting_view_info_event data
   else mret ());;
  schedule_update_ha_state.

(** [LGDevice.volume_level] *)
Definition volume_level (d : LGDevice) : outcome value :=
  if ne_int (_volume_max d) 0 then truediv (_volume d) (_volume_max d)
  else Return (PInt 0).

(** [LGDevice.is_volume_muted] *)
Definition is_volume_muted (d : LGDevice) : value := _mute d.

(** The body shared by [sound_mode] and [source]: the name at [index] of
    [table], [None] for -1 and beyond the end. *)
Definition current_name (table : list string) (index : value)
  : outcome (option string) :=
  if eq_int index (-1) then Return None
  else
    beyond ← ge_int index (Z.of_nat (length table));
    if beyond : bool then Return None
    else name ← list_getitem table index; Return (Some name).

(** [LGDevice.sound_mode] *)
Definition sound_mode (d : LGDevice) : outcome (option string) :=
  current_name equalisers (_equaliser d).

(** [LGDevice.source] *)
Definition source (d : LGDevice) : outcome (option string) :=
  current_name functions (_function d).

(** The loop shared by [sound_mode_list] and [source_list]: [names] is the
    list built so far. *)
Fixpoint append_names (table : list string) (indices : list value)
  (names : list string) : outcome (list string) :=
  match indices with
  | [] => Return names
  | index :: rest =>
      below ← lt_int index (Z.of_nat (length table));
      if below : bool then
        name ← list_getitem table index;
        append_names table rest (names ++ [name])
      else append_names table rest names
  end.

Definition available_names (table : list string) (indices : value)
  : outcome (list string) :=
  l ← items indices;
  names ← append_names table l [];
  Return (sorted names).

(** [LGDevice.sound_mode_list] *)
Definition sound_mode_list (d : LGDevice) : outcome (list string) :=
  available_names equalisers (_equalisers d).

(** [LGDevice.source_list] *)
Definition source_list (d : LGDevice) : outcome (list string) :=
  available_names functions (_functions d).

(** [LGDevice.set_volume_level] *)
Definition set_volume_level (volume : spec_float) : M unit :=
  volume_max ← read A_volume_max;
  volume ← eval (float_mul volume volume_max);
  t ← device;
  n ← eval (int_of_float volume);
  call t (set_volume n).

(** [LGDevice.mute_volume] *)
Definition mute_volume (mute : bool) : M unit :=
  t ← device; call t (set_mute mute).

(** [LGDevice.select_source] *)
Definition select_source (source : string) : M unit :=
  t ← device;
  index ← eval (list_index functions source);
  call t (set_func index).

(** [LGDevice.select_sound_mode] *)
Definition select_sound_mode (sound_mode : string) : M unit :=
  t ← device;
  index ← eval (list_index equalisers sound_mode);
  call t (set_eq index).

(** [LGDevice._set_power] *)
Definition _set_power (status : bool) : M unit :=
  t ← device;
  call t (send_packet "set" {[ "b_powerkey" := PBool status ]}
            "SPK_LIST_VIEW_INFO").

(** [LGDevice.turn_on] *)
Definition turn_on : M unit := _set_power true.

(** [LGDevice.turn_off] *)
Definition turn_off : M unit := _set_power false.

End Methods.

(** ** Event kinds, field sets and the merge as a function *)

(** The merge of one payload key into one attribute. *)
Definition merged (a : attr) (data : dict) (key : string) (d : LGDevice) : LGDevice :=
  setattr a (default (getattr a d) (data !! key)) d.

(** The message kinds [handle_event] dispatches on. *)
Inductive kind : Type :=
| EQ_VIEW_INFO
| SPK_LIST_VIEW_INFO
| FUNC_VIEW_INFO
| SETTING_VIEW_INFO.

Definition tag (k : kind) : string :=
  match k with
  | EQ_VIEW_INFO => "EQ_VIEW_INFO"
  | SPK_LIST_VIEW_INFO => "SPK_LIST_VIEW_INFO"
  | FUNC_VIEW_INFO => "FUNC_VIEW_INFO"
  | SETTING_VIEW_INFO => "SETTING_VIEW_INFO"
  end.

(** The field set of a kind: the payload keys its handler merges into an
    attribute that every instance has, each with that attribute, in the
    order of the assignments.  The key [s_user_name], which the
    SETTING_VIEW_INFO handler merges last and into [_attr_name], is set
    apart ([name_step]). *)
Definition field_set (k : kind) : list (string * attr) :=
  match k with
  | EQ_VIEW_INFO =>
      [("i_bass", A_bass); ("i_treble", A_treble);
       ("ai_eq_list", A_equalisers); ("i_curr_eq", A_equaliser)]
  | SPK_LIST_VIEW_INFO =>
      [("i_vol", A_volume); ("i_vol_min", A_volume_min);
       ("i_vol_max", A_volume_max); ("i_curr_func", A_function)]
  | FUNC_VIEW_INFO =>
      [("i_curr_func", A_function); ("ai_func_list", A_functions)]
  | SETTING_VIEW_INFO =>
      [("i_rear_min", A_rear_volume_min); ("i_rear_max", A_rear_volume_max);
       ("i_rear_level", A_rear_volume); ("i_woofer_min", A_woofer_volume_min);
       ("i_woofer_max", A_woofer_volume_max);
       ("i_woofer_level", A_woofer_volume); ("i_curr_eq", A_equaliser)]
  end.

(** The merges of a list of keys, first to last. *)
Definition merge_all (l : list (string * attr)) (data : dict) (d : LGDevice)
  : LGDevice :=
  foldl (fun d ka => merged ka.2 data ka.1 d) d l.
Arguments merge_all : simpl never.

(** A snapshot field: an attribute, the display name, or the power
    state. *)
Inductive field : Type :=
| Attr (a : attr)
| DisplayName
| PowerState.

#[global] Instance field_eq_dec : EqDecision field.
Proof. solve_decision. Defined.

(** What a field holds; the display name may be unset. *)
Definition field_value (f : field) (d : LGDevice)
  : option value + MediaPlayerState.t :=
  match f with
  | Attr a => inl (Some (getattr a d))
  | DisplayName => inl (_attr_name d)
  | PowerState => inr (_attr_state d)
  end.

(** The field set of a kind in the words of the spec: the keys of
    [field_set], and for SETTING_VIEW_INFO the display name as well. *)
Definition declared_fields (k : kind) : list (string * field) :=
  ((fun ka => (ka.1, Attr ka.2)) <$> field_set k)
  ++ match k with
     | SETTING_VIEW_INFO => [("s_user_name", DisplayName)]
     | _ => []
     end.

Definition fields (k : kind) : list field := (declared_fields k).*2.

Definition with_self (d : LGDevice) (st : state) : state :=
  {| self := d; scheduled_updates := scheduled_updates st |}.

(** What the power-status test at the end of the SPK_LIST_VIEW_INFO handler
    does to an instance. *)
Definition power_step (data : dict) (d : LGDevice) : LGDevice * outcome () :=
  match data !! "b_powerstatus" with
  | None => (d, Return ())
  | Some _ =>
      match data !! "b_power_status" with
      | None => (d, Raise (KeyError "b_power_status"))
      | Some status =>
          (set_attr_state
             (if truthy status then MediaPlayerState.ON else MediaPlayerState.OFF) d,
           Return ())
      end
  end.

(** What the last assignment of the SETTING_VIEW_INFO handler does to an
    instance: the read of [self._attr_name] raises when the instance has no
    such attribute, before anything is assigned. *)
Definition name_step (data : dict) (d : LGDevice) : LGDevice * outcome () :=
  match _attr_name d with
  | None => (d, Raise AttributeError)
  | Some name =>
      (set_attr_name (default name (data !! "s_user_name")) d, Return ())
  end.

(** The kind a message tag stands for, tested in the order of
    [handle_event]. *)
Definition kind_of (m : string) : option kind :=
  if String.eqb m "EQ_VIEW_INFO" then Some EQ_VIEW_INFO
  else if String.eqb m "SPK_LIST_VIEW_INFO" then Some SPK_LIST_VIEW_INFO
  else if String.eqb m "FUNC_VIEW_INFO" then Some FUNC_VIEW_INFO
  else if String.eqb m "SETTING_VIEW_INFO" then Some SETTING_VIEW_INFO
  else None.

(** The effect of a handler on the instance, and how the handler ends. *)
Definition apply_kind (k : kind) (data : dict) (d : LGDevice)
  : LGDevice * outcome () :=
  match k with
  | SPK_LIST_VIEW_INFO => power_step data (merge_all (field_set k) data d)
  | SETTING_VIEW_INFO => name_step data (merge_all (field_set k) data d)
  | _ => (merge_all (field_set k) data d, Return ())
  end.

Definition apply_event (r : response) (d : LGDevice) : LGDevice * outcome () :=
  match kind_of (msg r) with
  | Some k => apply_kind k (data r) d
  | None => (d, Return ())
  end.

(** The message of kind [k] carrying [data]. *)
Definition event (k : kind) (data : dict) : response :=
  {| msg := tag k; data := data |}.

(** A freshly constructed entity that has written no state yet. *)
Definition fresh : state :=
  {| self := __init__ (PStr "192.168.1.20") (PInt 9741) (PStr "lg-soundbar");
     scheduled_updates := 0 |}.

(** The merge rule in the words of the spec: a field of the kind's field
    set is overwritten by a present key and retained on an absent one, and
    no field outside the field set is modified. *)
Definition merge_rule (k : kind) (data : dict) (st : state) : Prop :=
  (forall key f v, (key, f) ∈ declared_fields k -> data !! key = Some v ->
     field_value f (self (exec (handle_event (event k data)) st)) = inl (Some v)) /\
  (forall key f, (key, f) ∈ declared_fields k -> data !! key = None ->
     field_value f (self (exec (handle_event (event k data)) st)) =
     field_value f (self st)) /\
  (forall f, f ∉ fields k ->
     field_value f (self (exec (handle_event (event k data)) st)) =
     field_value f (self st)).

(** A SPK_LIST_VIEW_INFO payload with both spellings of the power key. *)
Definition power_off_payload : dict :=
  {[ "b_powerstatus" := PBool false; "b_power_status" := PBool false ]}.

(** The messages the transport delivers to the callback, one after the
    other; a message whose handling raised does not stop the next. *)
Definition feed (events : list response) (st : state) : state :=
  foldl (fun st r => exec (handle_event r) st) st events.

(** ** Fixtures *)

(** Small name tables standing for [temescal.functions] and
    [temescal.equalisers]. *)
Definition fixture_functions : list string := ["Wifi"; "Bluetooth"; "Aux"].
Definition fixture_equalisers : list string := ["Standard"; "Bass"; "Flat"].

(** A network on which every connection opens. *)
Definition reachable : value -> value -> outcome () := fun _ _ => Return ().

(** The fresh entity after a [_connect] that returned. *)
Definition connected : state := exec (_connect reachable) fresh.

(** Unknown-name rejection in the words of the spec: with a name that is
    not in the table, [select_source] and [select_sound_mode] fail with
    NotFound (the [ValueError] of [list.index]) and leave the entity, the
    requests made included, as it was. *)
Definition unknown_name_rejected (functions equalisers : list string)
  (name : string) (st : state) : Prop :=
  (name ∉ functions ->
   select_source functions name st = (st, Raise ValueError)) /\
  (name ∉ equalisers ->
   select_sound_mode equalisers name st = (st, Raise ValueError)).

(** ** Volume *)

(** [lo <= r <= hi], for a number [r]. *)
Definition in_range (lo hi : Z) (r : value) : bool :=
  match compare_int r lo, compare_int r hi with
  | Some (Some (Gt | Eq)), Some (Some (Lt | Eq)) => true
  | _, _ => false
  end.

(** The datum is zero or a positive finite number, at most 1. *)
Definition unit_datum (f : spec_float) : Prop :=
  f = S754_zero false \/
  exists m e, f = S754_finite false m e /\ e < 0 /\ Zpos m <= 2 ^ (- e).

(** The bounds of [volume_level] in the words of the spec: with a volume
    that is not negative, a value in [[0,1]] when [volume_max] is positive
    and 0 when it is 0. *)
Definition volume_level_bounded (d : LGDevice) : Prop :=
  forall v m, _volume d = PInt v -> _volume_max d = PInt m -> 0 <= v ->
    (0 < m -> exists r, volume_level d = Return r /\ in_range 0 1 r = true) /\
    (m = 0 -> volume_level d = Return (PInt 0)).

(** The entity after a SPK_LIST_VIEW_INFO message that reports the volume
    50 with the maximum 40. *)
Definition above_maximum : state :=
  exec (handle_event
          (event SPK_LIST_VIEW_INFO {[ "i_vol" := PInt 50; "i_vol_max" := PInt 40 ]}))
    fresh.

(** The entity after a SPK_LIST_VIEW_INFO message that reports the volume
    20 with the maximum 40. *)
Definition half_volume : state :=
  exec (handle_event
          (event SPK_LIST_VIEW_INFO {[ "i_vol" := PInt 20; "i_vol_max" := PInt 40 ]}))
    fresh.

(** The datum is a number: a zero or a finite float. *)
Definition finite_datum (f : spec_float) : Prop :=
  match f with
  | S754_zero _ | S754_finite _ _ _ => True
  | _ => False
  end.

(** [round(f)] in the words of the spec: the nearest integer, ties to the
    even one. *)
Definition round_of_float (f : spec_float) : outcome Z :=
  match f with
  | S754_zero _ => Return 0
  | S754_infinity _ => Raise OverflowError
  | S754_nan => Raise ValueError
  | S754_finite s m e =>
      let a := match e with
               | Zneg k =>
                   let q := Z.shiftr (Zpos m) (Zpos k) in
                   let r := Zpos m - Z.shiftl q (Zpos k) in
                   match 2 * r ?= 2 ^ Zpos k with
                   | Lt => q
                   | Gt => q + 1
                   | Eq => if Z.even q then q else q + 1
                   end
               | _ => Z.shiftl (Zpos m) e
               end in
      Return (if s then - a else a)
  end.

(** A binary64 level between 0 and 1. *)
Definition level_in_unit (level : spec_float) : Prop :=
  valid_binary prec emax level = true /\
  fleb fzero level = true /\
  fleb level fone = true.

(** The state with one more request made on the connection object. *)
Definition with_request (r : request) (st : state) : state :=
  match _device (self st) with
  | Some t =>
      with_self (set_device (Some {| requests := requests t ++ [r] |}) (self st)) st
  | None => st
  end.

(** [set_volume_level] in the words of the spec: the volume sent is the
    rounding of the product of the level and [volume_max]. *)
Definition set_volume_level_rounds (level : spec_float) (st : state) : Prop :=
  forall m t, _device (self st) = Some t -> _volume_max (self st) = PInt m ->
    level_in_unit level ->
    exists p n,
      float_mul level (PInt m) = Return p /\
      round_of_float p = Return n /\
      set_volume_level level st = (with_request (set_volume n) st, Return ()).

(** The level 0.75. *)
Definition three_quarters : spec_float :=
  S754_finite false 6755399441055744 (-53).

(** The connected entity after a SPK_LIST_VIEW_INFO message that reports
    the maximum volume [m]. *)
Definition with_maximum (m : Z) : state :=
  exec (handle_event (event SPK_LIST_VIEW_INFO {[ "i_vol_max" := PInt m ]}))
    connected.

(** ** Messages, commands and runs *)

(** Whether the SPK_LIST_VIEW_INFO handler reads the absent key: the
    message has that kind and its payload holds [b_powerstatus] without
    [b_power_status]. *)
Definition reads_absent_key (r : response) : bool :=
  String.eqb (msg r) "SPK_LIST_VIEW_INFO"
  && contains (data r) "b_powerstatus"
  && negb (contains (data r) "b_power_status").

(** Whether the SETTING_VIEW_INFO handler reads [_attr_name] on an
    instance that has no such attribute: the message has that kind and
    [_attr_name] is unset. *)
Definition reads_unset_name (r : response) (d : LGDevice) : bool :=
  String.eqb (msg r) "SETTING_VIEW_INFO"
  && match _attr_name d with Some _ => false | None => true end.

(** Whether [handle_event] raises on a message: one of the two reads
    above. *)
Definition handle_event_raises (r : response) (d : LGDevice) : bool :=
  reads_absent_key r || reads_unset_name r d.

(** The command methods of the entity, each with its arguments. *)
Inductive command : Type :=
| Update
| SetVolumeLevel (volume : spec_float)
| MuteVolume (mute : bool)
| SelectSource (source : string)
| SelectSoundMode (sound_mode : string)
| TurnOn
| TurnOff.

(** The call of a command method. *)
Definition run_command (functions equalisers : list string) (c : command)
  : M unit :=
  match c with
  | Update => update
  | SetVolumeLevel volume => set_volume_level volume
  | MuteVolume mute => mute_volume mute
  | SelectSource source => select_source functions source
  | SelectSoundMode sound_mode => select_sound_mode equalisers sound_mode
  | TurnOn => turn_on
  | TurnOff => turn_off
  end.

(** What happens to an entity: the transport delivers a message, or the
    platform calls a command. *)
Inductive action : Type :=
| Deliver (r : response)
| Call (c : command).

Definition run_action (functions equalisers : list string) (a : action)
  : M unit :=
  match a with
  | Deliver r => handle_event r
  | Call c => run_command functions equalisers c
  end.

(** A history of actions, each run in the state the one before left. *)
Definition run_actions (functions equalisers : list string)
  (actions : list action) (st : state) : state :=
  foldl (fun st a => exec (run_action functions equalisers a) st) st actions.

(** * Properties *)

(** ** Attribute access *)

Lemma getattr_setattr (a b : attr) (v : value) (d : LGDevice) :
  getattr b (setattr a v d) = if decide (a = b) then v else getattr b d.
Proof. destruct b; reflexivity. Qed.

Lemma getattr_setattr_eq (a : attr) (v : value) (d : LGDevice) :
  getattr a (setattr a v d) = v.
Proof. rewrite getattr_setattr. by rewrite decide_True. Qed.

Lemma getattr_setattr_ne (a b : attr) (v : value) (d : LGDevice) :
  a ≠ b -> getattr b (setattr a v d) = getattr b d.
Proof. intros Hab. rewrite getattr_setattr. by rewrite decide_False. Qed.

Lemma getattr_set_attr_state (b : attr) (s : MediaPlayerState.t) (d : LGDevice) :
  getattr b (set_attr_state s d) = getattr b d.
Proof. destruct b; reflexivity. Qed.

Lemma getattr_set_attr_name (b : attr) (v : value) (d : LGDevice) :
  getattr b (set_attr_name v d) = getattr b d.
Proof. destruct b; reflexivity. Qed.

Lemma set_attr_name_twice (v w : value) (d : LGDevice) :
  set_attr_name w (set_attr_name v d) = set_attr_name w d.
Proof. reflexivity. Qed.

(** Two instances with the same attributes are the same instance. *)
Lemma LGDevice_ext (d1 d2 : LGDevice) :
  (forall a, getattr a d1 = getattr a d2) ->
  _attr_state d1 = _attr_state d2 ->
  _device d1 = _device d2 ->
  _attr_name d1 = _attr_name d2 ->
  d1 = d2.
Proof.
  intros Ha Hs Hd Hn. destruct d1, d2. simpl in Hs, Hd, Hn. subst.
  pose proof (Ha A_host). pose proof (Ha A_port). pose proof (Ha A_attr_unique_id).
  pose proof (Ha A_volume). pose proof (Ha A_volume_min). pose proof (Ha A_volume_max).
  pose proof (Ha A_function). pose proof (Ha A_functions).
  pose proof (Ha A_equaliser). pose proof (Ha A_equalisers). pose proof (Ha A_mute).
  pose proof (Ha A_rear_volume). pose proof (Ha A_rear_volume_min).
  pose proof (Ha A_rear_volume_max). pose proof (Ha A_woofer_volume).
  pose proof (Ha A_woofer_volume_min). pose proof (Ha A_woofer_volume_max).
  pose proof (Ha A_bass). pose proof (Ha A_treble).
  simpl in *. by subst.
Qed.

(** ** Running method bodies *)

Lemma bind_run {A B} (m : M A) (f : A -> M B) (st : state) :
  (m ≫= f) st =
  match m st with
  | (st', Return a) => f a st'
  | (st', Raise e) => (st', Raise e)
  end.
Proof. reflexivity. Qed.

Lemma get_value_run (data : dict) (key : string) (v : value) (st : state) :
  get_value data key v st = (st, Return (default v (data !! key))).
Proof.
  unfold get_value, contains, getitem, eval.
  case_bool_decide as Hin.
  - destruct Hin as [w ->]. reflexivity.
  - destruct (data !! key) as [w|] eqn:Hk; [|reflexivity].
    exfalso. apply Hin. by eexists.
Qed.

Lemma assign_get_value_run (a : attr) (data : dict) (key : string) (st : state) :
  assign_get_value a data key st =
  ({| self := merged a data key (self st);
      scheduled_updates := scheduled_updates st |}, Return ()).
Proof.
  unfold assign_get_value. rewrite bind_run. unfold read.
  rewrite bind_run, get_value_run. reflexivity.
Qed.

Lemma handle_eq_view_info_event_run (data : dict) (st : state) :
  handle_eq_view_info_event data st =
  (with_self (merge_all (field_set EQ_VIEW_INFO) data (self st)) st, Return ()).
Proof.
  unfold handle_eq_view_info_event.
  repeat (rewrite bind_run, assign_get_value_run; simpl).
  rewrite assign_get_value_run. reflexivity.
Qed.

Lemma handle_func_view_info_event_run (data : dict) (st : state) :
  handle_func_view_info_event data st =
  (with_self (merge_all (field_set FUNC_VIEW_INFO) data (self st)) st, Return ()).
Proof.
  unfold handle_func_view_info_event.
  repeat (rewrite bind_run, assign_get_value_run; simpl).
  rewrite assign_get_value_run. reflexivity.
Qed.

Lemma handle_setting_view_info_event_run (data : dict) (st : state) :
  handle_setting_view_info_event data st =
  let r := name_step data (merge_all (field_set SETTING_VIEW_INFO) data (self st)) in
  (with_self r.1 st, r.2).
Proof.
  unfold handle_setting_view_info_event.
  repeat (rewrite bind_run, assign_get_value_run; simpl).
  unfold name_step, read_attr_name. rewrite bind_run. cbn [self].
  destruct (_attr_name _) as [name|]; [|reflexivity].
  rewrite bind_run, get_value_run. reflexivity.
Qed.

Lemma handle_spk_list_view_info_event_run (data : dict) (st : state) :
  handle_spk_list_view_info_event data st =
  let r := power_step data (merge_all (field_set SPK_LIST_VIEW_INFO) data (self st)) in
  (with_self r.1 st, r.2).
Proof.
  unfold handle_spk_list_view_info_event.
  repeat (rewrite bind_run, assign_get_value_run; simpl).
  unfold power_step, contains, getitem, eval.
  case_bool_decide as Hin.
  - destruct Hin as [w ->]. rewrite bind_run.
    destruct (data !! "b_power_status") as [status|]; [|reflexivity].
    destruct (truthy status); reflexivity.
  - destruct (data !! "b_powerstatus") as [w|] eqn:Hk; [|reflexivity].
    exfalso. apply Hin. by eexists.
Qed.

Lemma kind_of_tag (k : kind) : kind_of (tag k) = Some k.
Proof. destruct k; reflexivity. Qed.

Lemma kind_of_Some (m : string) (k : kind) : kind_of m = Some k -> m = tag k.
Proof.
  unfold kind_of.
  repeat match goal with
         | |- context [String.eqb m ?s] =>
             destruct (String.eqb_spec m s) as [->|_]; [by intros [= <-]|]
         end.
  done.
Qed.

Lemma kind_of_None (m : string) : kind_of m = None <-> forall k, m ≠ tag k.
Proof.
  split.
  - intros Hm k ->. by rewrite kind_of_tag in Hm.
  - intros Hm. destruct (kind_of m) as [k|] eqn:Hk; [|done].
    by apply kind_of_Some, Hm in Hk.
Qed.

Lemma handle_event_run (r : response) (st : state) :
  handle_event r st =
  let p := apply_event r (self st) in
  match p.2 with
  | Return _ =>
      ({| self := p.1; scheduled_updates := S (scheduled_updates st) |}, Return ())
  | Raise e => (with_self p.1 st, Raise e)
  end.
Proof.
  unfold handle_event, apply_event, kind_of. rewrite bind_run.
  destruct (String.eqb (msg r) "EQ_VIEW_INFO").
  { by rewrite handle_eq_view_info_event_run. }
  destruct (String.eqb (msg r) "SPK_LIST_VIEW_INFO").
  { rewrite handle_spk_list_view_info_event_run. simpl.
    by destruct (power_step _ _) as [d [[]|e]]. }
  destruct (String.eqb (msg r) "FUNC_VIEW_INFO").
  { by rewrite handle_func_view_info_event_run. }
  destruct (String.eqb (msg r) "SETTING_VIEW_INFO").
  { rewrite handle_setting_view_info_event_run. simpl.
    by destruct (name_step _ _) as [d [[]|e]]. }
  by destruct st.
Qed.

(** ** The merge rule *)

Lemma merge_all_cons (k : string) (a : attr) (l : list (string * attr))
  (data : dict) (d : LGDevice) :
  merge_all ((k, a) :: l) data d = merge_all l data (merged a data k d).
Proof. reflexivity. Qed.

Lemma merge_all_attr_state (l : list (string * attr)) (data : dict) (d : LGDevice) :
  _attr_state (merge_all l data d) = _attr_state d.
Proof.
  revert d. induction l as [|[k a] l IH]; intros d; [done|].
  rewrite merge_all_cons, IH. reflexivity.
Qed.

Lemma merge_all_device (l : list (string * attr)) (data : dict) (d : LGDevice) :
  _device (merge_all l data d) = _device d.
Proof.
  revert d. induction l as [|[k a] l IH]; intros d; [done|].
  rewrite merge_all_cons, IH. reflexivity.
Qed.

Lemma merge_all_attr_name (l : list (string * attr)) (data : dict) (d : LGDevice) :
  _attr_name (merge_all l data d) = _attr_name d.
Proof.
  revert d. induction l as [|[k a] l IH]; intros d; [done|].
  rewrite merge_all_cons, IH. reflexivity.
Qed.

Lemma merge_all_other (l : list (string * attr)) (data : dict) (d : LGDevice)
  (b : attr) :
  b ∉ l.*2 -> getattr b (merge_all l data d) = getattr b d.
Proof.
  revert d. induction l as [|[k a] l IH]; intros d Hb; [done|].
  rewrite fmap_cons, not_elem_of_cons in Hb. destruct Hb as [Hba Hb].
  rewrite merge_all_cons, IH by done.
  unfold merged. by rewrite getattr_setattr_ne.
Qed.

Lemma merge_all_field (l : list (string * attr)) (data : dict) (d : LGDevice)
  (key : string) (b : attr) :
  NoDup l.*2 -> (key, b) ∈ l ->
  getattr b (merge_all l data d) = default (getattr b d) (data !! key).
Proof.
  revert d. induction l as [|[k a] l IH]; intros d Hnd Hin.
  { by apply elem_of_nil in Hin. }
  rewrite fmap_cons, NoDup_cons in Hnd. destruct Hnd as [Ha Hnd].
  rewrite merge_all_cons. apply elem_of_cons in Hin as [[= -> ->]|Hin].
  - rewrite merge_all_other by done. apply getattr_setattr_eq.
  - rewrite IH by done. unfold merged. rewrite getattr_setattr_ne; [done|].
    intros ->. apply Ha. apply list_elem_of_fmap. by exists (key, b).
Qed.

Lemma merge_all_idemp (l : list (string * attr)) (data : dict) (d : LGDevice) :
  NoDup l.*2 -> merge_all l data (merge_all l data d) = merge_all l data d.
Proof.
  intros Hnd. apply LGDevice_ext.
  - intros b. destruct (decide (b ∈ l.*2)) as [Hb|Hb].
    + apply list_elem_of_fmap in Hb as [[key b'] [-> Hin]]. simpl.
      rewrite !(merge_all_field l data _ key b') by done.
      by destruct (data !! key).
    + by rewrite !merge_all_other.
  - by rewrite !merge_all_attr_state.
  - by rewrite !merge_all_device.
  - by rewrite !merge_all_attr_name.
Qed.

Lemma field_set_NoDup (k : kind) : NoDup (field_set k).*2.
Proof. destruct k; apply (bool_decide_unpack _); by vm_compute. Qed.

Lemma power_step_getattr (data : dict) (d : LGDevice) (b : attr) :
  getattr b (power_step data d).1 = getattr b d.
Proof.
  unfold power_step.
  destruct (data !! "b_powerstatus"); [|done].
  destruct (data !! "b_power_status"); [|done].
  simpl. apply getattr_set_attr_state.
Qed.

Lemma power_step_device (data : dict) (d : LGDevice) :
  _device (power_step data d).1 = _device d.
Proof.
  unfold power_step.
  destruct (data !! "b_powerstatus"); [|done].
  by destruct (data !! "b_power_status").
Qed.

Lemma name_step_getattr (data : dict) (d : LGDevice) (b : attr) :
  getattr b (name_step data d).1 = getattr b d.
Proof.
  unfold name_step. destruct (_attr_name d); [|done].
  apply getattr_set_attr_name.
Qed.

Lemma name_step_device (data : dict) (d : LGDevice) :
  _device (name_step data d).1 = _device d.
Proof. unfold name_step. by destruct (_attr_name d). Qed.

Lemma name_step_attr_state (data : dict) (d : LGDevice) :
  _attr_state (name_step data d).1 = _attr_state d.
Proof. unfold name_step. by destruct (_attr_name d). Qed.

Lemma power_step_attr_name (data : dict) (d : LGDevice) :
  _attr_name (power_step data d).1 = _attr_name d.
Proof.
  unfold power_step.
  destruct (data !! "b_powerstatus"); [|done].
  by destruct (data !! "b_power_status").
Qed.

Lemma merged_set_attr_state (a : attr) (data : dict) (key : string)
  (s : MediaPlayerState.t) (d : LGDevice) :
  merged a data key (set_attr_state s d) = set_attr_state s (merged a data key d).
Proof. unfold merged. rewrite getattr_set_attr_state. reflexivity. Qed.

Lemma merge_all_set_attr_state (l : list (string * attr)) (data : dict)
  (s : MediaPlayerState.t) (d : LGDevice) :
  merge_all l data (set_attr_state s d) = set_attr_state s (merge_all l data d).
Proof.
  revert d. induction l as [|[k a] l IH]; intros d; [done|].
  by rewrite !merge_all_cons, merged_set_attr_state, IH.
Qed.

Lemma exec_handle_event_self (r : response) (st : state) :
  self (exec (handle_event r) st) = (apply_event r (self st)).1.
Proof.
  unfold exec. rewrite handle_event_run. simpl.
  by destruct (apply_event r (self st)) as [d [[]|e]].
Qed.

Lemma result_handle_event (r : response) (st : state) :
  result (handle_event r) st = (apply_event r (self st)).2.
Proof.
  unfold result. rewrite handle_event_run. simpl.
  by destruct (apply_event r (self st)) as [d [[]|e]].
Qed.

Lemma apply_event_tag (k : kind) (data : dict) (d : LGDevice) :
  apply_event {| msg := tag k; data := data |} d = apply_kind k data d.
Proof. unfold apply_event. simpl. by rewrite kind_of_tag. Qed.

Lemma merged_set_attr_name (a : attr) (data : dict) (key : string)
  (v : value) (d : LGDevice) :
  merged a data key (set_attr_name v d) = set_attr_name v (merged a data key d).
Proof. unfold merged. rewrite getattr_set_attr_name. reflexivity. Qed.

Lemma merge_all_set_attr_name (l : list (string * attr)) (data : dict)
  (v : value) (d : LGDevice) :
  merge_all l data (set_attr_name v d) = set_attr_name v (merge_all l data d).
Proof.
  revert d. induction l as [|[k a] l IH]; intros d; [done|].
  by rewrite !merge_all_cons, merged_set_attr_name, IH.
Qed.

Lemma apply_kind_getattr (k : kind) (data : dict) (d : LGDevice) (b : attr) :
  getattr b (apply_kind k data d).1 = getattr b (merge_all (field_set k) data d).
Proof.
  destruct k; try done; [apply power_step_getattr|apply name_step_getattr].
Qed.

Lemma apply_kind_device (k : kind) (data : dict) (d : LGDevice) :
  _device (apply_kind k data d).1 = _device d.
Proof.
  destruct k; unfold apply_kind; rewrite ?power_step_device, ?name_step_device;
    apply merge_all_device.
Qed.

Lemma apply_kind_attr_state (k : kind) (data : dict) (d : LGDevice) :
  k ≠ SPK_LIST_VIEW_INFO -> _attr_state (apply_kind k data d).1 = _attr_state d.
Proof.
  destruct k; try done; intros _; unfold apply_kind;
    rewrite ?name_step_attr_state; apply merge_all_attr_state.
Qed.

Lemma apply_kind_attr_name (k : kind) (data : dict) (d : LGDevice) :
  k ≠ SETTING_VIEW_INFO -> _attr_name (apply_kind k data d).1 = _attr_name d.
Proof.
  destruct k; try done; intros _; unfold apply_kind;
    rewrite ?power_step_attr_name; apply merge_all_attr_name.
Qed.

(** ** Claims about the event merge *)

(** C1, as stated, fails: the power state is outside the field set of
    SPK_LIST_VIEW_INFO, and a message of that kind with both power keys
    turns a fresh entity from ON to OFF. *)
Lemma merge_rule_fails_on_power_state :
  ~ merge_rule SPK_LIST_VIEW_INFO power_off_payload fresh.
Proof.
  intros (_ & _ & Hframe).
  specialize (Hframe PowerState).
  assert (Hout : PowerState ∉ fields SPK_LIST_VIEW_INFO).
  { apply (bool_decide_unpack _). by vm_compute. }
  specialize (Hframe Hout). vm_compute in Hframe. discriminate Hframe.
Qed.

Lemma fields_attr (k : kind) (a : attr) :
  a ∈ (field_set k).*2 -> Attr a ∈ fields k.
Proof.
  intros Ha. apply list_elem_of_fmap in Ha as [[key a'] [-> Hin]].
  unfold fields, declared_fields. apply list_elem_of_fmap.
  exists (key, Attr a'). split; [done|]. apply elem_of_app. left.
  apply list_elem_of_fmap. by exists (key, a').
Qed.

(** The display name of an entity that has none: the SETTING_VIEW_INFO
    handler merges its other seven keys, then raises [AttributeError] on
    the read of [self._attr_name]; the name stays unset, whatever
    [s_user_name] holds, and no state write is scheduled. *)
Lemma handle_event_unset_name (data : dict) (st : state) :
  _attr_name (self st) = None ->
  result (handle_event (event SETTING_VIEW_INFO data)) st = Raise AttributeError /\
  _attr_name (self (exec (handle_event (event SETTING_VIEW_INFO data)) st)) = None /\
  scheduled_updates (exec (handle_event (event SETTING_VIEW_INFO data)) st)
  = scheduled_updates st.
Proof.
  intros Hname. unfold result, exec, event.
  rewrite handle_event_run, apply_event_tag.
  unfold apply_kind, name_step. rewrite merge_all_attr_name, Hname.
  cbn [fst snd self scheduled_updates with_self].
  by rewrite merge_all_attr_name.
Qed.

(** C1, amended: for each of the four kinds, [handle_event] sets every
    attribute of the kind's field set (the declared fields other than the
    display name) to the payload value when its key is present and leaves
    it as it was when the key is absent, whether the handler returns or
    raises; the fields outside the declared field set keep what they hold,
    except the power state under SPK_LIST_VIEW_INFO. *)
Theorem handle_event_merge_rule (k : kind) (data : dict) (st : state) :
  (forall key a v, (key, a) ∈ field_set k -> data !! key = Some v ->
     getattr a (self (exec (handle_event (event k data)) st)) = v) /\
  (forall key a, (key, a) ∈ field_set k -> data !! key = None ->
     getattr a (self (exec (handle_event (event k data)) st)) = getattr a (self st)) /\
  (forall f, f ∉ fields k ->
     (k, f) ≠ (SPK_LIST_VIEW_INFO, PowerState) ->
     field_value f (self (exec (handle_event (event k data)) st)) =
     field_value f (self st)).
Proof.
  unfold event. rewrite exec_handle_event_self, apply_event_tag.
  pose proof (field_set_NoDup k) as Hnd.
  split; [|split].
  - intros key a v Hin Hkey.
    rewrite apply_kind_getattr, (merge_all_field _ _ _ key) by done.
    by rewrite Hkey.
  - intros key a Hin Hkey.
    rewrite apply_kind_getattr, (merge_all_field _ _ _ key) by done.
    by rewrite Hkey.
  - intros [a| |] Hout Hne; simpl.
    + rewrite apply_kind_getattr, merge_all_other; [done|].
      intros Ha. by apply Hout, fields_attr.
    + rewrite apply_kind_attr_name; [done|]. intros ->. apply Hout.
      apply (bool_decide_unpack _). by vm_compute.
    + rewrite apply_kind_attr_state; [done|]. by intros ->.
Qed.

Lemma handle_event_merge_rule_witness :
  getattr A_bass
    (self (exec (handle_event (event EQ_VIEW_INFO {[ "i_bass" := PInt 5 ]})) fresh))
  = PInt 5 /\
  getattr A_treble
    (self (exec (handle_event (event EQ_VIEW_INFO {[ "i_bass" := PInt 5 ]})) fresh))
  = getattr A_treble (self fresh) /\
  field_value (Attr A_volume)
    (self (exec (handle_event (event EQ_VIEW_INFO {[ "i_bass" := PInt 5 ]})) fresh))
  = field_value (Attr A_volume) (self fresh).
Proof.
  destruct (handle_event_merge_rule EQ_VIEW_INFO {[ "i_bass" := PInt 5 ]} fresh)
    as (Hset & Hkeep & Hframe).
  split; [|split].
  - apply (Hset "i_bass"); [simpl; rewrite !elem_of_cons; auto | reflexivity].
  - apply (Hkeep "i_treble"); [simpl; rewrite !elem_of_cons; auto | reflexivity].
  - apply Hframe; [|discriminate].
    apply (bool_decide_unpack _). by vm_compute.
Defined.

(** C2: a SPK_LIST_VIEW_INFO message whose payload has [b_power_status]
    set to false but no key [b_powerstatus] leaves the power state as it
    was; the handler returns. *)
Theorem power_status_without_presence_key (data : dict) (st : state) :
  data !! "b_power_status" = Some (PBool false) ->
  data !! "b_powerstatus" = None ->
  _attr_state (self (exec (handle_event (event SPK_LIST_VIEW_INFO data)) st))
  = _attr_state (self st) /\
  result (handle_event (event SPK_LIST_VIEW_INFO data)) st = Return ().
Proof.
  intros _ Habsent. unfold event.
  rewrite exec_handle_event_self, result_handle_event, apply_event_tag.
  unfold apply_kind, power_step. rewrite Habsent. cbn [fst snd].
  by rewrite merge_all_attr_state.
Qed.

Lemma power_status_without_presence_key_witness :
  _attr_state
    (self (exec (handle_event
                   (event SPK_LIST_VIEW_INFO {[ "b_power_status" := PBool false ]}))
             fresh))
  = _attr_state (self fresh) /\
  result (handle_event
            (event SPK_LIST_VIEW_INFO {[ "b_power_status" := PBool false ]}))
    fresh = Return ().
Proof.
  apply (power_status_without_presence_key {[ "b_power_status" := PBool false ]} fresh);
    reflexivity.
Defined.

(** C10: a SPK_LIST_VIEW_INFO message whose payload has the key
    [b_powerstatus] but not [b_power_status] makes [handle_event] raise the
    [KeyError] of the unguarded lookup [data["b_power_status"]]; the power
    state is not assigned and no state write is scheduled. *)
Theorem presence_key_alone_raises_KeyError (data : dict) (st : state) :
  is_Some (data !! "b_powerstatus") ->
  data !! "b_power_status" = None ->
  result (handle_event (event SPK_LIST_VIEW_INFO data)) st
  = Raise (KeyError "b_power_status") /\
  _attr_state (self (exec (handle_event (event SPK_LIST_VIEW_INFO data)) st))
  = _attr_state (self st) /\
  scheduled_updates (exec (handle_event (event SPK_LIST_VIEW_INFO data)) st)
  = scheduled_updates st.
Proof.
  intros [w Hpresent] Habsent. unfold event, exec, result.
  rewrite handle_event_run, apply_event_tag.
  unfold apply_kind, power_step. rewrite Hpresent, Habsent. cbn [fst snd with_self self scheduled_updates].
  by rewrite merge_all_attr_state.
Qed.

Lemma presence_key_alone_raises_KeyError_witness :
  result (handle_event (event SPK_LIST_VIEW_INFO {[ "b_powerstatus" := PBool true ]}))
    fresh
  = Raise (KeyError "b_power_status") /\
  _attr_state
    (self (exec (handle_event
                   (event SPK_LIST_VIEW_INFO {[ "b_powerstatus" := PBool true ]}))
             fresh))
  = _attr_state (self fresh) /\
  scheduled_updates
    (exec (handle_event (event SPK_LIST_VIEW_INFO {[ "b_powerstatus" := PBool true ]}))
       fresh)
  = scheduled_updates fresh.
Proof.
  apply (presence_key_alone_raises_KeyError {[ "b_powerstatus" := PBool true ]} fresh).
  - by exists (PBool true).
  - reflexivity.
Defined.

(** A message of no recognised kind changes no attribute, raises nothing
    and schedules one state write. *)
Lemma handle_event_unrecognised (r : response) (st : state) :
  (forall k, msg r ≠ tag k) ->
  handle_event r st =
  ({| self := self st; scheduled_updates := S (scheduled_updates st) |}, Return ()).
Proof.
  intros Hk. apply kind_of_None in Hk.
  rewrite handle_event_run. unfold apply_event. by rewrite Hk.
Qed.

(** Whenever [handle_event] returns, it has scheduled exactly one state
    write. *)
Lemma handle_event_returns_scheduled (r : response) (st : state) :
  result (handle_event r) st = Return () ->
  scheduled_updates (exec (handle_event r) st) = S (scheduled_updates st).
Proof.
  unfold result, exec. rewrite handle_event_run. simpl.
  by destruct (apply_event r (self st)) as [d [[]|e]].
Qed.

(** C7, at the failing input: the message SPK_LIST_VIEW_INFO with payload
    [{"b_powerstatus": true}] is processed by raising [KeyError], and the
    state write that should follow every message is not scheduled. *)
Theorem handle_event_raise_skips_update :
  handle_event (event SPK_LIST_VIEW_INFO {[ "b_powerstatus" := PBool true ]}) fresh
  = (fresh, Raise (KeyError "b_power_status")).
Proof. reflexivity. Qed.

(** C8: handling the same message twice leaves the instance as handling it
    once does. *)
Theorem handle_event_idempotent (r : response) (st : state) :
  self (exec (handle_event r) (exec (handle_event r) st))
  = self (exec (handle_event r) st).
Proof.
  rewrite !exec_handle_event_self. unfold apply_event.
  destruct (kind_of (msg r)) as [k|]; [|done].
  pose proof (field_set_NoDup k) as Hnd.
  destruct k; simpl; try by apply merge_all_idemp.
  - unfold power_step.
    destruct (data r !! "b_powerstatus"); [|by apply merge_all_idemp].
    destruct (data r !! "b_power_status") as [status|]; [|by apply merge_all_idemp].
    simpl. rewrite merge_all_set_attr_state, merge_all_idemp by done.
    reflexivity.
  - unfold name_step at 2 3. rewrite merge_all_attr_name.
    destruct (_attr_name (self st)) as [name|] eqn:Hname; cbn [fst].
    + rewrite merge_all_set_attr_name, merge_all_idemp by done.
      unfold name_step. cbn [_attr_name set_attr_name fst].
      destruct (data r !! "s_user_name"); apply set_attr_name_twice.
    + rewrite merge_all_idemp by done.
      unfold name_step. by rewrite merge_all_attr_name, Hname.
Qed.

Lemma handle_event_mute (r : response) (st : state) :
  _mute (self (exec (handle_event r) st)) = _mute (self st).
Proof.
  rewrite exec_handle_event_self. unfold apply_event.
  destruct (kind_of (msg r)) as [k|]; [|done].
  change (getattr A_mute (apply_kind k (data r) (self st)).1 = getattr A_mute (self st)).
  rewrite apply_kind_getattr. apply merge_all_other.
  destruct k; simpl; rewrite !not_elem_of_cons, elem_of_nil; naive_solver.
Qed.

(** C9: no handler assigns [_mute]: after any sequence of messages
    delivered to a newly constructed entity, [is_volume_muted] is still the
    integer 0 of [__init__]. *)
Theorem is_volume_muted_constant (host port unique_id : value) (n : nat)
  (events : list response) :
  is_volume_muted
    (self (feed events {| self := __init__ host port unique_id;
                          scheduled_updates := n |}))
  = PInt 0.
Proof.
  unfold is_volume_muted, feed.
  assert (Hinv : forall st, _mute (self (foldl (fun st r => exec (handle_event r) st)
                                          st events)) = _mute (self st)).
  { induction events as [|r events IH]; intros st; [done|].
    simpl. by rewrite IH, handle_event_mute. }
  by rewrite Hinv.
Qed.

(** ** Commands with a name *)

Lemma list_index_absent (xs : list string) (x : string) :
  x ∉ xs -> list_index xs x = Raise ValueError.
Proof.
  induction xs as [|y ys IH]; intros Hx; [done|].
  apply not_elem_of_cons in Hx as [Hxy Hx]. simpl.
  rewrite decide_False by done. by rewrite IH.
Qed.

(** Before [_connect] there is no connection object and the lookup of its
    method raises first. *)
Lemma select_source_not_connected (functions : list string) (name : string)
  (st : state) :
  _device (self st) = None ->
  select_source functions name st = (st, Raise AttributeError).
Proof.
  intros Hd. unfold select_source. rewrite bind_run. unfold device.
  by rewrite Hd.
Qed.

(** C6, as stated, fails: the claim holds of no entity before [_connect].
    On a new entity [select_source] with an unknown name raises the
    [AttributeError] of the missing connection object, not NotFound. *)
Lemma select_unknown_name_before_connect :
  ~ unknown_name_rejected fixture_functions fixture_equalisers "NoSuchInput" fresh.
Proof.
  intros [Hsource _].
  assert (Hname : "NoSuchInput" ∉ fixture_functions).
  { apply (bool_decide_unpack _). by vm_compute. }
  specialize (Hsource Hname).
  rewrite select_source_not_connected in Hsource by reflexivity.
  discriminate Hsource.
Qed.

(** C6, amended: on a connected entity, [select_source] and [select_sound_mode]
    with a name that is not in the table raise the [ValueError] of
    [list.index] (the spec's NotFound) before any request is made: the
    state, requests included, is the one before the call. *)
Theorem select_unknown_name_raises (functions equalisers : list string)
  (name : string) (st : state) (t : temescal) :
  _device (self st) = Some t ->
  (name ∉ functions ->
   select_source functions name st = (st, Raise ValueError)) /\
  (name ∉ equalisers ->
   select_sound_mode equalisers name st = (st, Raise ValueError)).
Proof.
  intros Hd. split; intros Hname.
  - unfold select_source. rewrite bind_run. unfold device. rewrite Hd.
    rewrite bind_run. unfold eval. by rewrite list_index_absent.
  - unfold select_sound_mode. rewrite bind_run. unfold device. rewrite Hd.
    rewrite bind_run. unfold eval. by rewrite list_index_absent.
Qed.

Lemma select_unknown_name_raises_witness :
  select_source fixture_functions "NoSuchInput" connected
  = (connected, Raise ValueError) /\
  select_sound_mode fixture_equalisers "NoSuchMode" connected
  = (connected, Raise ValueError).
Proof.
  destruct (select_unknown_name_raises fixture_functions fixture_equalisers
              "NoSuchInput" connected
              {| requests := [get_product_info; get_mac_info; get_eq; get_info;
                              get_func; get_settings] |} eq_refl) as [Hs _].
  destruct (select_unknown_name_raises fixture_functions fixture_equalisers
              "NoSuchMode" connected
              {| requests := [get_product_info; get_mac_info; get_eq; get_info;
                              get_func; get_settings] |} eq_refl) as [_ He].
  split.
  - apply Hs. unfold fixture_functions.
    rewrite !not_elem_of_cons, elem_of_nil. naive_solver.
  - apply He. unfold fixture_equalisers.
    rewrite !not_elem_of_cons, elem_of_nil. naive_solver.
Defined.

(** ** Name lists *)

(** Whatever the indices, a returned list of names is sorted. *)
Lemma available_names_sorted (table : list string) (indices : value)
  (names : list string) :
  available_names table indices = Return names -> Sorted String.le names.
Proof.
  unfold available_names.
  destruct (items indices) as [l|e]; [|done]. simpl.
  destruct (append_names table l []) as [ns|e]; [|done]. simpl.
  intros [= <-]. apply (Sorted_merge_sort String.le).
Qed.

(** An index at or beyond the end of the table adds no name. *)
Lemma append_names_beyond (table : list string) (z : Z) (rest : list value)
  (names : list string) :
  Z.of_nat (length table) <= z ->
  append_names table (PInt z :: rest) names = append_names table rest names.
Proof.
  intros Hz. simpl. unfold lt_int, compare_int.
  destruct (Z.compare_spec z (Z.of_nat (length table))); try reflexivity. lia.
Qed.

(** C5, at the failing inputs: after an EQ_VIEW_INFO message whose
    equaliser list is [[-1]], [sound_mode_list] holds the last name of the
    table, taken through the negative index; after a FUNC_VIEW_INFO message
    whose function list is [[-4]], [source_list] raises [IndexError] on a
    table of three names. *)
Theorem name_lists_negative_index :
  sound_mode_list fixture_equalisers
    (self (exec (handle_event
                   (event EQ_VIEW_INFO {[ "ai_eq_list" := PList [PInt (-1)] ]}))
             fresh))
  = Return ["Flat"] /\
  source_list fixture_functions
    (self (exec (handle_event
                   (event FUNC_VIEW_INFO {[ "ai_func_list" := PList [PInt (-4)] ]}))
             fresh))
  = Raise IndexError.
Proof. split; reflexivity. Qed.

(** ** binary64 facts *)

Section Binary64.

Local Abbreviation fexp := (SpecFloat.fexp prec emax).

Lemma digits2_pos_size (p : positive) : digits2_pos p = Pos.size p.
Proof. induction p as [p IH|p IH|]; simpl; by rewrite ?IH. Qed.

Lemma Zdigits2_upper (z : Z) : 0 <= z -> z < 2 ^ Zdigits2 z.
Proof.
  intros Hz. destruct z as [|p|p]; [done| |lia].
  simpl. rewrite digits2_pos_size.
  pose proof (Pos.size_gt p) as Hp.
  apply Pos2Z.pos_lt_pos in Hp. by rewrite Pos2Z.inj_pow in Hp.
Qed.

Lemma Zdigits2_lower (p : positive) : 2 ^ (Zdigits2 (Zpos p) - 1) <= Zpos p.
Proof.
  simpl. rewrite digits2_pos_size.
  pose proof (Pos.size_le p) as Hp.
  apply Pos2Z.pos_le_pos in Hp. rewrite Pos2Z.inj_pow in Hp.
  assert (Hs : 2 ^ Zpos (Pos.size p) = 2 * 2 ^ (Zpos (Pos.size p) - 1)).
  { rewrite <- Z.pow_succ_r by lia. f_equal. lia. }
  rewrite Hs in Hp. lia.
Qed.

Lemma Zdigits2_bound (z k : Z) : 0 <= z -> 0 <= k -> z < 2 ^ k -> Zdigits2 z <= k.
Proof.
  intros Hz Hk Hlt. destruct z as [|p|p]; [done| |lia].
  pose proof (Zdigits2_lower p) as Hlow.
  assert (Hpow : 2 ^ (Zdigits2 (Zpos p) - 1) < 2 ^ k) by lia.
  apply Z.pow_lt_mono_r_iff in Hpow; lia.
Qed.

Lemma shr_1_m (mrs : shr_record) :
  0 <= shr_m mrs -> shr_m (shr_1 mrs) = shr_m mrs / 2.
Proof.
  destruct mrs as [m r s]. simpl. intros Hm.
  destruct m as [|[p|p|]|p]; simpl; try lia; try reflexivity.
  - rewrite Pos2Z.inj_xI. apply (Z.div_unique _ _ _ 1); lia.
  - rewrite Pos2Z.inj_xO. apply (Z.div_unique _ _ _ 0); lia.
Qed.

Lemma pow2_xO (p : positive) : 2 ^ Zpos p~0 = 2 ^ Zpos p * 2 ^ Zpos p.
Proof. rewrite Pos2Z.inj_xO, <- Z.pow_add_r by lia. f_equal. lia. Qed.

Lemma pow2_xI (p : positive) : 2 ^ Zpos p~1 = 2 * (2 ^ Zpos p * 2 ^ Zpos p).
Proof.
  rewrite Pos2Z.inj_xI, <- Z.pow_add_r, <- Z.pow_succ_r by lia. f_equal. lia.
Qed.

Lemma iter_pos_shr_m (p : positive) (mrs : shr_record) :
  0 <= shr_m mrs ->
  shr_m (SpecFloat.iter_pos shr_1 p mrs) = shr_m mrs / 2 ^ Zpos p.
Proof.
  revert mrs. induction p as [p IH|p IH|]; intros mrs Hm; simpl.
  - assert (H1 : 0 <= shr_m (shr_1 mrs)).
    { rewrite shr_1_m by done. apply Z.div_pos; lia. }
    assert (H2 : 0 <= shr_m (SpecFloat.iter_pos shr_1 p (shr_1 mrs))).
    { rewrite IH by done. apply Z.div_pos; lia. }
    rewrite !IH, shr_1_m by done.
    rewrite !Z.div_div by lia. f_equal.
    rewrite pow2_xI. ring.
  - assert (H2 : 0 <= shr_m (SpecFloat.iter_pos shr_1 p mrs)).
    { rewrite IH by done. apply Z.div_pos; lia. }
    rewrite !IH by done. rewrite Z.div_div by lia. f_equal.
    rewrite pow2_xO. reflexivity.
  - rewrite shr_1_m by done. reflexivity.
Qed.

Lemma shr_spec (mrs : shr_record) (e n : Z) :
  0 <= shr_m mrs ->
  shr_m (shr mrs e n).1 = shr_m mrs / 2 ^ Z.max 0 n /\
  (shr mrs e n).2 = e + Z.max 0 n.
Proof.
  intros Hm. destruct n as [|p|p]; simpl.
  - rewrite Z.div_1_r. lia.
  - rewrite iter_pos_shr_m by done. split; [done|lia].
  - rewrite Z.div_1_r. lia.
Qed.

Lemma shr_fexp_spec (m e : Z) (l : location) :
  0 <= m ->
  shr_m (shr_fexp prec emax m e l).1
  = m / 2 ^ Z.max 0 (fexp (Zdigits2 m + e) - e) /\
  (shr_fexp prec emax m e l).2 = e + Z.max 0 (fexp (Zdigits2 m + e) - e).
Proof.
  intros Hm. unfold shr_fexp.
  assert (Hr : shr_m (shr_record_of_loc m l) = m) by by destruct l as [|[]].
  pose proof (shr_spec (shr_record_of_loc m l) e
                (fexp (Zdigits2 m + e) - e)) as Hs.
  rewrite Hr in Hs. by apply Hs.
Qed.

Lemma round_nearest_even_bounds (m : Z) (l : location) :
  m <= round_nearest_even m l <= m + 1.
Proof.
  destruct l as [|[]]; simpl; try lia. destruct (Z.even m); lia.
Qed.

Lemma binary_round_aux_unit (q e : Z) (l : location) :
  0 <= q -> e < 0 -> q + 1 <= 2 ^ (- e) ->
  unit_datum (binary_round_aux prec emax false q e l).
Proof.
  intros Hq He Hlt. unfold binary_round_aux.
  pose proof (shr_fexp_spec q e l Hq) as [Hm1 He1].
  destruct (shr_fexp prec emax q e l) as [mrs1 e1]. simpl in Hm1, He1.
  set (k1 := Z.max 0 (fexp (Zdigits2 q + e) - e)) in *.
  assert (Hdq : Zdigits2 q <= - e) by (apply Zdigits2_bound; lia).
  assert (Hk1 : 0 <= k1) by lia.
  assert (He1' : e1 < 0).
  { subst e1 k1. unfold SpecFloat.fexp, emin, prec, emax. lia. }
  assert (Hpow1 : 2 ^ (- e) = 2 ^ k1 * 2 ^ (- e1)).
  { rewrite <- Z.pow_add_r by lia. f_equal. lia. }
  assert (H2k1 : 0 < 2 ^ k1) by (apply Z.pow_pos_nonneg; lia).
  assert (Hm1lo : 0 <= shr_m mrs1) by (rewrite Hm1; apply Z.div_pos; lia).
  assert (Hm1hi : shr_m mrs1 + 1 <= 2 ^ (- e1)).
  { rewrite Hm1.
    enough (q / 2 ^ k1 < 2 ^ (- e1)) by lia.
    apply Z.div_lt_upper_bound; lia. }
  pose proof (round_nearest_even_bounds (shr_m mrs1) (loc_of_shr_record mrs1))
    as Hround.
  set (m1 := round_nearest_even (shr_m mrs1) (loc_of_shr_record mrs1)) in *.
  assert (Hm1' : 0 <= m1) by lia.
  pose proof (shr_fexp_spec m1 e1 loc_Exact Hm1') as [Hm2 He2].
  destruct (shr_fexp prec emax m1 e1 loc_Exact) as [mrs2 e2]. simpl in Hm2, He2.
  set (k2 := Z.max 0 (fexp (Zdigits2 m1 + e1) - e1)) in *.
  assert (Hd1 : Zdigits2 m1 <= - e1 + 1).
  { apply Zdigits2_bound; [lia|lia|].
    rewrite Z.pow_add_r, Z.pow_1_r by lia. lia. }
  assert (Hk2 : 0 <= k2) by lia.
  assert (He2' : e2 < 0).
  { subst e2 k2. unfold SpecFloat.fexp, emin, prec, emax. lia. }
  assert (Hpow2 : 2 ^ (- e1) = 2 ^ k2 * 2 ^ (- e2)).
  { rewrite <- Z.pow_add_r by lia. f_equal. lia. }
  assert (H2k2 : 0 < 2 ^ k2) by (apply Z.pow_pos_nonneg; lia).
  assert (Hm2lo : 0 <= shr_m mrs2) by (rewrite Hm2; apply Z.div_pos; lia).
  assert (Hm2hi : shr_m mrs2 <= 2 ^ (- e2)).
  { rewrite Hm2. apply Z.div_le_upper_bound; lia. }
  destruct (shr_m mrs2) as [|m2|m2]; [by left| |lia].
  right. exists m2, e2.
  assert (Hle : (e2 <=? emax - prec) = true).
  { apply Z.leb_le. unfold emax, prec. lia. }
  by rewrite Hle.
Qed.

Lemma SFdiv_core_binary_ints (v m : positive) :
  let e := Z.min (fexp (Zdigits2 (Zpos v) - Zdigits2 (Zpos m))) 0 in
  SFdiv_core_binary prec emax (Zpos v) 0 (Zpos m) 0
  = (Zpos v * 2 ^ (- e) / Zpos m, e,
     new_location (Zpos m) ((Zpos v * 2 ^ (- e)) mod Zpos m)).
Proof.
  intros e. unfold SFdiv_core_binary.
  rewrite !Z.add_0_r, !Z.sub_0_r. fold e. rewrite Z.sub_0_l.
  assert (He : e <= 0) by (subst e; lia).
  assert (Hm' : match - e with
                | Z0 => Zpos v
                | Zpos _ => Z.shiftl (Zpos v) (- e)
                | Zneg _ => 0
                end = Zpos v * 2 ^ (- e)).
  { destruct (- e) as [|s|s] eqn:Hs; [lia| |lia].
    by rewrite Z.shiftl_mul_pow2. }
  rewrite Hm'. unfold Z.div, Z.modulo.
  by destruct (Z.div_eucl (Zpos v * 2 ^ (- e)) (Zpos m)) as [q r].
Qed.

Lemma new_location_0 (n : Z) : new_location n 0 = loc_Exact.
Proof. unfold new_location. by destruct (Z.even n). Qed.

(** The quotient of two positive integers, the smaller by the larger. *)
Lemma fdiv_ints_unit (v m : positive) :
  (v <= m)%positive ->
  unit_datum (fdiv (float_exact (Zpos v)) (float_exact (Zpos m))).
Proof.
  intros Hvm. unfold fdiv, float_exact, SFdiv.
  pose proof (SFdiv_core_binary_ints v m) as Hcore. cbv zeta in Hcore.
  rewrite Hcore. clear Hcore. simpl xorb.
  set (e := Z.min (fexp (Zdigits2 (Zpos v) - Zdigits2 (Zpos m))) 0).
  assert (Hdig : Zdigits2 (Zpos v) <= Zdigits2 (Zpos m)).
  { apply Zdigits2_bound; [lia|simpl; lia|].
    pose proof (Zdigits2_upper (Zpos m)). lia. }
  assert (He : e <= -53).
  { subst e. unfold SpecFloat.fexp, emin, prec, emax. lia. }
  assert (H2e : 0 < 2 ^ (- e)) by (apply Z.pow_pos_nonneg; lia).
  destruct (decide (v = m)) as [->|Hne].
  - (* the quotient is exactly one *)
    assert (Hd0 : e = -53).
    { subst e. rewrite Z.sub_diag. reflexivity. }
    rewrite Hd0. rewrite (Z.mul_comm (Zpos m)), Z.div_mul, Z.mod_mul by lia.
    rewrite new_location_0. clear. right.
    exists 4503599627370496%positive, (-52). by vm_compute.
  - apply binary_round_aux_unit.
    + apply Z.div_pos; lia.
    + lia.
    + enough (Zpos v * 2 ^ (- e) / Zpos m < 2 ^ (- e)) by lia.
      apply Z.div_lt_upper_bound; [lia|].
      apply Zmult_lt_compat_r; lia.
Qed.

End Binary64.

(** ** The volume level *)

Lemma unit_datum_in_range (f : spec_float) :
  unit_datum f -> is_inf f = false /\ in_range 0 1 (PFloat f) = true.
Proof.
  intros [->|(m & e & -> & He & Hm)]; [done|].
  split; [done|]. unfold in_range, compare_int, fcompare_int.
  destruct e as [|k|k]; try lia.
  rewrite Z.shiftl_0_l, Z.shiftl_1_l. simpl (Z.pos m ?= 0).
  change (- Z.neg k) with (Z.pos k) in Hm.
  by destruct (Z.compare_spec (Z.pos m) (2 ^ Z.pos k)); try lia.
Qed.

(** C4, as stated, fails: the device may report a volume above its
    maximum, and the quotient 50/40 is 1.25. *)
Lemma volume_level_above_one : ~ volume_level_bounded (self above_maximum).
Proof.
  intros Hclaim.
  destruct (Hclaim 50 40 eq_refl eq_refl) as [Hpos _]; [lia|].
  destruct Hpos as (r & Hr & Hrange); [lia|].
  vm_compute in Hr. injection Hr as <-. vm_compute in Hrange. discriminate.
Qed.

(** C4, amended: with a volume between 0 and [volume_max], [volume_level]
    returns a value in [[0,1]] when [volume_max] is positive; with any
    volume that is not negative it returns 0 when [volume_max] is 0. *)
Theorem volume_level_bounds (d : LGDevice) (v m : Z) :
  _volume d = PInt v -> _volume_max d = PInt m -> 0 <= v ->
  (0 < m -> v <= m ->
   exists r, volume_level d = Return r /\ in_range 0 1 r = true) /\
  (m = 0 -> volume_level d = Return (PInt 0)).
Proof.
  intros Hv Hm Hv0. unfold volume_level. rewrite Hv, Hm. split.
  - intros Hm0 Hvm.
    assert (Hne : ne_int (PInt m) 0 = true).
    { unfold ne_int, eq_int, compare_int.
      by destruct (Z.compare_spec m 0); try lia. }
    rewrite Hne. unfold truediv, is_number, as_int. simpl negb. cbv iota.
    unfold int_truediv.
    assert (Hz : (m =? 0) = false) by (apply Z.eqb_neq; lia).
    rewrite Hz.
    destruct m as [|pm|pm]; try lia.
    destruct v as [|pv|pv]; try lia.
    + exists (PFloat (S754_zero false)). by split.
    + destruct (unit_datum_in_range
                  (fdiv (float_exact (Z.pos pv)) (float_exact (Z.pos pm))))
        as [Hinf Hrange].
      { apply fdiv_ints_unit. lia. }
      rewrite Hinf. eauto.
  - intros ->. reflexivity.
Qed.

Lemma volume_level_bounds_witness :
  (exists r, volume_level (self half_volume) = Return r /\
             in_range 0 1 r = true) /\
  volume_level (self fresh) = Return (PInt 0).
Proof.
  split.
  - apply (volume_level_bounds (self half_volume) 20 40); [reflexivity|reflexivity|lia|lia|lia].
  - apply (volume_level_bounds (self fresh) 0 0); [reflexivity|reflexivity|lia|reflexivity].
Defined.

(** ** The product of a level and a maximum *)

Section Product.

Local Abbreviation fexp := (SpecFloat.fexp prec emax).

Lemma shr_fexp_lt_prec (m e : Z) (l : location) :
  0 <= m -> shr_m (shr_fexp prec emax m e l).1 < 2 ^ prec.
Proof.
  intros Hm. destruct (shr_fexp_spec m e l Hm) as [-> _].
  set (k := Z.max 0 (fexp (Zdigits2 m + e) - e)).
  assert (Hd : 0 <= Zdigits2 m) by (destruct m; simpl; lia).
  assert (Hk : Zdigits2 m <= k + prec).
  { subst k. unfold SpecFloat.fexp, emin, prec, emax. lia. }
  assert (Hk0 : 0 <= k) by (subst k; lia).
  apply Z.div_lt_upper_bound; [apply Z.pow_pos_nonneg; lia|].
  rewrite <- Z.pow_add_r by (unfold prec; lia).
  eapply Z.lt_le_trans; [apply (Zdigits2_upper m Hm)|].
  apply Z.pow_le_mono_r; lia.
Qed.

Lemma shr_fexp_emin (m e : Z) (l : location) :
  0 <= m -> emin prec emax <= (shr_fexp prec emax m e l).2.
Proof.
  intros Hm. destruct (shr_fexp_spec m e l Hm) as [_ ->].
  unfold SpecFloat.fexp. lia.
Qed.

(** The second half of [binary_round_aux]: a rounded mantissa that fits,
    or has carried into one more bit with room left in the exponent, gives
    a number. *)
Lemma round_carry_finite (s : bool) (m e : Z) :
  0 <= m -> emin prec emax <= e ->
  (m < 2 ^ prec /\ e <= emax - prec) \/ (m = 2 ^ prec /\ e < emax - prec) ->
  finite_datum
    (let '(mrs, e') := shr_fexp prec emax m e loc_Exact in
     match shr_m mrs with
     | Z0 => S754_zero s
     | Zpos m' =>
         if e' <=? emax - prec then S754_finite s m' e' else S754_infinity s
     | Zneg _ => S754_nan
     end).
Proof.
  intros Hm He Hcases.
  destruct (shr_fexp_spec m e loc_Exact Hm) as [Hm2 He2].
  destruct (shr_fexp prec emax m e loc_Exact) as [mrs e']. simpl in Hm2, He2.
  assert (Hdig : Zdigits2 m <= prec + 1).
  { apply Zdigits2_bound; [lia|unfold prec; lia|].
    destruct Hcases as [[Hlt _]|[-> _]].
    - eapply Z.lt_trans; [exact Hlt|]. apply Z.pow_lt_mono_r; unfold prec; lia.
    - apply Z.pow_lt_mono_r; unfold prec; lia. }
  assert (Hdig' : m < 2 ^ prec -> Zdigits2 m <= prec).
  { intros Hlt. apply Zdigits2_bound; [lia|unfold prec; lia|done]. }
  assert (He' : e' <= emax - prec).
  { subst e'. unfold SpecFloat.fexp, emin, prec, emax in *.
    destruct Hcases as [[Hlt Hle]|[-> Hlt]].
    - specialize (Hdig' Hlt). lia.
    - lia. }
  assert (H0 : 0 <= shr_m mrs).
  { rewrite Hm2. apply Z.div_pos; [lia|]. apply Z.pow_pos_nonneg; lia. }
  destruct (shr_m mrs) as [|m'|m']; [done| |lia].
  apply Z.leb_le in He'. by rewrite He'.
Qed.

Lemma binary_round_aux_shape (s : bool) (q e : Z) (l : location) :
  0 <= q ->
  match binary_round_aux prec emax s q e l with
  | S754_finite _ m' e' => Zpos m' < 2 ^ prec /\ e' <= emax - prec
  | S754_nan => False
  | _ => True
  end.
Proof.
  intros Hq. unfold binary_round_aux.
  pose proof (shr_fexp_spec q e l Hq) as [Hm1 _].
  destruct (shr_fexp prec emax q e l) as [mrs1 e1]. simpl in Hm1.
  assert (H1 : 0 <= shr_m mrs1).
  { rewrite Hm1. apply Z.div_pos; [lia|]. apply Z.pow_pos_nonneg; lia. }
  pose proof (round_nearest_even_bounds (shr_m mrs1) (loc_of_shr_record mrs1)).
  set (m1 := round_nearest_even (shr_m mrs1) (loc_of_shr_record mrs1)) in *.
  assert (Hm1' : 0 <= m1) by lia.
  pose proof (shr_fexp_lt_prec m1 e1 loc_Exact Hm1') as Hlt.
  pose proof (shr_fexp_spec m1 e1 loc_Exact Hm1') as [Hm2 _].
  destruct (shr_fexp prec emax m1 e1 loc_Exact) as [mrs2 e2].
  simpl in Hlt, Hm2.
  assert (H2 : 0 <= shr_m mrs2).
  { rewrite Hm2. apply Z.div_pos; [lia|]. apply Z.pow_pos_nonneg; lia. }
  destruct (shr_m mrs2) as [|m2|m2]; [done| |lia].
  destruct (Z.leb_spec e2 (emax - prec)); done.
Qed.

Lemma float_of_int_shape (z : Z) (f : spec_float) :
  float_of_int z = Return f ->
  match f with
  | S754_zero _ => True
  | S754_finite _ m e => Zpos m < 2 ^ prec /\ e <= emax - prec
  | _ => False
  end.
Proof.
  unfold float_of_int, binary_normalize, binary_round.
  destruct z as [|p|p]; simpl.
  - by intros [= <-].
  - destruct (shl_align p 0 _) as [mz ez].
    pose proof (binary_round_aux_shape false (Zpos mz) ez loc_Exact) as Hs.
    destruct (binary_round_aux prec emax false (Zpos mz) ez loc_Exact);
      simpl; intros [= <-]; try done; by apply Hs.
  - destruct (shl_align p 0 _) as [mz ez].
    pose proof (binary_round_aux_shape true (Zpos mz) ez loc_Exact) as Hs.
    destruct (binary_round_aux prec emax true (Zpos mz) ez loc_Exact);
      simpl; intros [= <-]; try done; by apply Hs.
Qed.

Lemma shr_1_double (x : Z) :
  0 <= x ->
  shr_1 {| shr_m := 2 * x; shr_r := false; shr_s := false |}
  = {| shr_m := x; shr_r := false; shr_s := false |}.
Proof. intros Hx. destruct x as [|p|p]; [done|done|lia]. Qed.

(** Shifting out bits that are all zero leaves an exact record. *)
Lemma iter_pos_shr_exact (p : positive) (c : Z) :
  0 <= c ->
  SpecFloat.iter_pos shr_1 p
    {| shr_m := c * 2 ^ Zpos p; shr_r := false; shr_s := false |}
  = {| shr_m := c; shr_r := false; shr_s := false |}.
Proof.
  revert c. induction p as [p IH|p IH|]; intros c Hc; cbn [SpecFloat.iter_pos].
  - rewrite pow2_xI.
    replace (c * (2 * (2 ^ Z.pos p * 2 ^ Z.pos p)))
      with (2 * (c * 2 ^ Z.pos p * 2 ^ Z.pos p)) by ring.
    assert (H2 : 0 < 2 ^ Z.pos p) by (apply Z.pow_pos_nonneg; lia).
    rewrite shr_1_double by nia.
    rewrite IH by nia. by rewrite IH.
  - rewrite pow2_xO.
    replace (c * (2 ^ Z.pos p * 2 ^ Z.pos p))
      with (c * 2 ^ Z.pos p * 2 ^ Z.pos p) by ring.
    assert (H2 : 0 < 2 ^ Z.pos p) by (apply Z.pow_pos_nonneg; lia).
    rewrite IH by nia. by rewrite IH.
  - change (2 ^ 1) with 2. rewrite (Z.mul_comm c 2). by apply shr_1_double.
Qed.

(** A level of at most 1 times a binary64 number is a number: the product
    does not overflow. *)
Lemma fmul_unit_finite (mx : positive) (ex : Z) (sy : bool) (my : positive)
  (ey : Z) :
  ex < 0 -> Zpos mx <= 2 ^ (- ex) ->
  Zpos my < 2 ^ prec -> ey <= emax - prec ->
  finite_datum (fmul (S754_finite false mx ex) (S754_finite sy my ey)).
Proof.
  intros Hex Hmx Hmy Hey. unfold fmul, SFmul, binary_round_aux. simpl xorb.
  rewrite Pos2Z.inj_mul.
  set (M := Zpos mx * Zpos my). set (E := ex + ey).
  set (T := 2 ^ (- ex)) in *.
  assert (HT : 0 < T) by (apply Z.pow_pos_nonneg; lia).
  assert (HM : 0 <= M) by (subst M; lia).
  assert (HMT : M <= T * Zpos my) by (subst M; nia).
  pose proof (shr_fexp_spec M E loc_Exact HM) as [Hm1 He1].
  pose proof (shr_fexp_lt_prec M E loc_Exact HM) as Hlt1.
  pose proof (shr_fexp_emin M E loc_Exact HM) as Hemin.
  assert (Hraw : shr_fexp prec emax M E loc_Exact
                 = shr {| shr_m := M; shr_r := false; shr_s := false |} E
                     (fexp (Zdigits2 M + E) - E)) by reflexivity.
  destruct (shr_fexp prec emax M E loc_Exact) as [mrs1 e1].
  cbn [fst snd] in Hm1, He1, Hlt1, Hemin.
  set (k1 := Z.max 0 (fexp (Zdigits2 M + E) - E)) in *.
  assert (Hk1 : 0 <= k1) by (subst k1; lia).
  assert (H2k1 : 0 < 2 ^ k1) by (apply Z.pow_pos_nonneg; lia).
  assert (H1 : 0 <= shr_m mrs1) by (rewrite Hm1; apply Z.div_pos; lia).
  assert (HdM : Zdigits2 M <= emax - E).
  { apply Zdigits2_bound; [lia|subst E; unfold emax, prec in *; lia|].
    apply Z.le_lt_trans with (T * Zpos my); [done|].
    apply Z.lt_le_trans with (T * 2 ^ prec); [nia|].
    subst T. rewrite <- Z.pow_add_r by (unfold prec; lia).
    apply Z.pow_le_mono_r; [lia|]. subst E. unfold emax, prec in *. lia. }
  assert (He1max : e1 <= emax - prec).
  { subst e1 k1 E. unfold SpecFloat.fexp, emin, emax, prec in *. lia. }
  pose proof (round_nearest_even_bounds (shr_m mrs1) (loc_of_shr_record mrs1))
    as Hround.
  apply round_carry_finite; [lia|done|].
  destruct (Z.lt_ge_cases
              (round_nearest_even (shr_m mrs1) (loc_of_shr_record mrs1))
              (2 ^ prec)) as [Hfit|Hcarry]; [by left|].
  right. split; [lia|].
  destruct (Z.lt_ge_cases e1 (emax - prec)) as [|Htop]; [done|exfalso].
  (* the mantissa is all ones at the top exponent: the level is 1 and the
     product is exact, so there was nothing to round *)
  assert (Hm1top : shr_m mrs1 = 2 ^ prec - 1) by lia.
  assert (Hlow : 2 ^ k1 * shr_m mrs1 <= M).
  { rewrite Hm1. apply Z.mul_div_le. lia. }
  assert (Hk1T : 2 ^ k1 <= T).
  { rewrite Hm1top in Hlow. unfold prec in *.
    assert (Zpos my <= 2 ^ 53 - 1) by lia. nia. }
  assert (Hk1ex : k1 <= - ex).
  { subst T. apply Z.pow_le_mono_r_iff in Hk1T; lia. }
  assert (Hk1eq : k1 = - ex).
  { subst E. unfold emax, prec in *. lia. }
  assert (HTk : T = 2 ^ k1) by (subst T; by rewrite Hk1eq).
  assert (Hmyeq : Zpos my = 2 ^ prec - 1).
  { rewrite Hm1top, <- HTk in Hlow. unfold prec in *. nia. }
  assert (HMeq : M = Zpos my * 2 ^ k1).
  { rewrite Hm1top, <- HTk in Hlow. rewrite <- HTk. rewrite Hmyeq in *. nia. }
  assert (Hshift : fexp (Zdigits2 M + E) - E = k1) by (subst k1; lia).
  rewrite Hshift, HMeq in Hraw.
  destruct k1 as [|p|p]; try lia.
  simpl in Hraw. rewrite iter_pos_shr_exact in Hraw by lia.
  injection Hraw as -> _. simpl in Hcarry. lia.
Qed.

End Product.

(** ** Setting the volume *)

Lemma int_of_float_finite (f : spec_float) :
  finite_datum f -> exists n, int_of_float f = Return n.
Proof. destruct f; simpl; intros Hf; try done; eauto. Qed.

Lemma fleb_fone_finite (mx : positive) (ex : Z) :
  fleb (S754_finite false mx ex) fone = true ->
  ex < -52 \/ (ex = -52 /\ Zpos mx <= 4503599627370496).
Proof.
  unfold fleb, SFleb, SFcompare, fone.
  destruct (Z.compare_spec ex (-52)) as [->|Hlt|Hgt]; [|by left|done].
  intros Hhi. right. split; [done|].
  rewrite Pos.compare_cont_spec in Hhi.
  apply Pos2Z.pos_le_pos. unfold Pos.le.
  by destruct (Pos.compare mx 4503599627370496).
Qed.

Lemma level_in_unit_cases (level : spec_float) :
  level_in_unit level ->
  (exists s, level = S754_zero s) \/
  (exists mx ex, level = S754_finite false mx ex /\ ex < 0 /\
                 Zpos mx <= 2 ^ (- ex)).
Proof.
  intros (Hvalid & Hlo & Hhi).
  destruct level as [s|s| |s mx ex]; [left; eauto| | |right].
  { destruct s; [by cbv in Hlo|by cbv in Hhi]. }
  { by cbv in Hlo. }
  destruct s; [by cbv in Hlo|]. exists mx, ex. split; [done|].
  unfold valid_binary, bounded, canonical_mantissa in Hvalid.
  apply andb_prop in Hvalid as [Hcanon _]. apply Z.eqb_eq in Hcanon.
  assert (Hmx : Zpos mx < 2 ^ prec).
  { pose proof (Zdigits2_upper (Zpos mx)) as Hup. simpl in Hup.
    eapply Z.lt_le_trans; [apply Hup; lia|].
    apply Z.pow_le_mono_r; [lia|].
    unfold SpecFloat.fexp, emin, prec, emax in *. lia. }
  destruct (fleb_fone_finite mx ex Hhi) as [Hlt|[-> Hle]].
  - split; [lia|]. apply Z.lt_le_incl. eapply Z.lt_le_trans; [exact Hmx|].
    apply Z.pow_le_mono_r; unfold prec; lia.
  - split; [lia|]. exact Hle.
Qed.

Lemma fmul_level_finite (level : spec_float) (m : Z) (fm : spec_float) :
  level_in_unit level -> float_of_int m = Return fm ->
  finite_datum (fmul level fm).
Proof.
  intros Hlevel Hfm. apply float_of_int_shape in Hfm.
  destruct (level_in_unit_cases level Hlevel)
    as [[s ->]|(mx & ex & -> & Hex & Hmx)].
  - by destruct fm.
  - destruct fm as [sy|sy| |sy my ey]; try done.
    destruct Hfm as [Hmy Hey]. by apply fmul_unit_finite.
Qed.

(** C3, as stated, fails: at level 0.75 with [volume_max] 1 the product
    0.75 rounds to 1, and the volume sent is 0. *)
Lemma set_volume_level_does_not_round :
  ~ set_volume_level_rounds three_quarters (with_maximum 1).
Proof.
  intros Hclaim.
  destruct (Hclaim 1 {| requests := [get_product_info; get_mac_info; get_eq;
                                     get_info; get_func; get_settings] |}
              eq_refl eq_refl) as (p & n & Hp & Hn & Hsent).
  { by vm_compute. }
  vm_compute in Hp. injection Hp as <-.
  vm_compute in Hn. injection Hn as <-.
  vm_compute in Hsent. discriminate Hsent.
Qed.

(** C3, amended: on a connected entity whose [volume_max] is an integer
    that [float] represents, [set_volume_level] with a level in [[0,1]]
    sends one [set_volume] request whose argument is [int(level *
    volume_max)], the binary64 product truncated toward zero, and changes
    nothing else; with [volume_max] 0 the volume sent is 0. *)
Theorem set_volume_level_truncates (level : spec_float) (st : state)
  (t : temescal) (m : Z) (fm : spec_float) :
  _device (self st) = Some t ->
  _volume_max (self st) = PInt m ->
  level_in_unit level ->
  float_of_int m = Return fm ->
  exists n,
    int_of_float (fmul level fm) = Return n /\
    set_volume_level level st = (with_request (set_volume n) st, Return ()) /\
    (m = 0 -> n = 0).
Proof.
  intros Hdev Hmax Hlevel Hfm.
  destruct (int_of_float_finite (fmul level fm)) as [n Hn].
  { by apply (fmul_level_finite level m). }
  exists n. split; [done|]. split.
  - unfold set_volume_level, with_request. rewrite bind_run.
    unfold read. simpl getattr. rewrite Hmax.
    rewrite bind_run. unfold eval, float_mul, to_float. rewrite Hfm.
    rewrite bind_run. unfold device. rewrite Hdev.
    rewrite bind_run, Hn. reflexivity.
  - intros ->. injection Hfm as <-.
    destruct (level_in_unit_cases level Hlevel) as [[s ->]|(mx & ex & -> & _)];
      simpl in Hn; by injection Hn.
Qed.

Lemma set_volume_level_truncates_witness :
  exists n,
    int_of_float (fmul three_quarters (S754_finite false 5629499534213120 (-47)))
    = Return n /\
    set_volume_level three_quarters (with_maximum 40)
    = (with_request (set_volume n) (with_maximum 40), Return ()) /\
    (40 = 0 -> n = 0).
Proof.
  apply (set_volume_level_truncates three_quarters (with_maximum 40)
           {| requests := [get_product_info; get_mac_info; get_eq; get_info;
                           get_func; get_settings] |} 40).
  - reflexivity.
  - reflexivity.
  - by vm_compute.
  - reflexivity.
Defined.

(** ** More on the event merge *)

Lemma contains_lookup (d : dict) (key : string) :
  contains d key = match d !! key with Some _ => true | None => false end.
Proof.
  unfold contains. destruct (d !! key) as [v|] eqn:Hk.
  - apply bool_decide_eq_true_2. by exists v.
  - apply bool_decide_eq_false_2. by intros [? ?].
Qed.

Lemma apply_event_outcome (r : response) (d : LGDevice) :
  (apply_event r d).2
  = if reads_absent_key r then Raise (KeyError "b_power_status")
    else if reads_unset_name r d then Raise AttributeError
    else Return ().
Proof.
  unfold apply_event, reads_absent_key, reads_unset_name, kind_of.
  rewrite !contains_lookup.
  destruct (String.eqb (msg r) "EQ_VIEW_INFO") eqn:Heq.
  { apply String.eqb_eq in Heq. rewrite Heq. reflexivity. }
  destruct (String.eqb (msg r) "SPK_LIST_VIEW_INFO") eqn:Hspk.
  - apply String.eqb_eq in Hspk. rewrite Hspk. unfold apply_kind, power_step.
    destruct (data r !! "b_powerstatus") as [w|]; [|reflexivity].
    destruct (data r !! "b_power_status") as [v|]; reflexivity.
  - simpl andb. cbv iota.
    destruct (String.eqb (msg r) "FUNC_VIEW_INFO") eqn:Hfunc.
    { apply String.eqb_eq in Hfunc. rewrite Hfunc. reflexivity. }
    destruct (String.eqb (msg r) "SETTING_VIEW_INFO"); [|reflexivity].
    unfold apply_kind, name_step. rewrite merge_all_attr_name.
    by destruct (_attr_name d).
Qed.

(** X1: [handle_event] raises on exactly two kinds of message, and what it
    raises is fixed by the message and the entity.  A SPK_LIST_VIEW_INFO
    whose payload holds [b_powerstatus] without [b_power_status] raises
    the [KeyError] of the absent key.  A SETTING_VIEW_INFO raises
    [AttributeError] on an entity whose [_attr_name] is unset, which it is
    on every new entity.  Every other message, of a known kind or not, is
    handled by returning. *)
Theorem handle_event_result (r : response) (st : state) :
  result (handle_event r) st
  = if reads_absent_key r then Raise (KeyError "b_power_status")
    else if reads_unset_name r (self st) then Raise AttributeError
    else Return ().
Proof. rewrite result_handle_event. apply apply_event_outcome. Qed.

(** X2: a SPK_LIST_VIEW_INFO message that carries both power keys sets the
    power state by the truth value of [b_power_status] alone, whatever
    [b_powerstatus] holds; the handler returns and one state write is
    scheduled. *)
Theorem power_state_follows_status (data : dict) (st : state)
  (present status : value) :
  data !! "b_powerstatus" = Some present ->
  data !! "b_power_status" = Some status ->
  _attr_state (self (exec (handle_event (event SPK_LIST_VIEW_INFO data)) st))
  = (if truthy status then MediaPlayerState.ON else MediaPlayerState.OFF) /\
  result (handle_event (event SPK_LIST_VIEW_INFO data)) st = Return () /\
  scheduled_updates (exec (handle_event (event SPK_LIST_VIEW_INFO data)) st)
  = S (scheduled_updates st).
Proof.
  intros Hpresent Hstatus. unfold event, exec, result.
  rewrite handle_event_run, apply_event_tag.
  unfold apply_kind, power_step. rewrite Hpresent, Hstatus.
  cbn [fst snd self scheduled_updates]. done.
Qed.

Lemma power_state_follows_status_witness :
  _attr_state
    (self (exec (handle_event (event SPK_LIST_VIEW_INFO power_off_payload)) fresh))
  = (if truthy (PBool false) then MediaPlayerState.ON else MediaPlayerState.OFF) /\
  result (handle_event (event SPK_LIST_VIEW_INFO power_off_payload)) fresh
  = Return () /\
  scheduled_updates
    (exec (handle_event (event SPK_LIST_VIEW_INFO power_off_payload)) fresh)
  = S (scheduled_updates fresh).
Proof.
  apply (power_state_follows_status power_off_payload fresh (PBool false)
           (PBool false)); reflexivity.
Defined.

Lemma exec_handle_event_device (r : response) (st : state) :
  _device (self (exec (handle_event r) st)) = _device (self st).
Proof.
  rewrite exec_handle_event_self. unfold apply_event.
  destruct (kind_of (msg r)) as [k|]; [|done]. apply apply_kind_device.
Qed.

(** X3: handling messages never touches the connection object: after any
    sequence of messages, whether their handling returned or raised, the
    connection and the requests made on it are what they were. *)
Theorem feed_device (events : list response) (st : state) :
  _device (self (feed events st)) = _device (self st).
Proof.
  unfold feed. revert st.
  induction events as [|r events IH]; intros st; simpl; [done|].
  by rewrite IH, exec_handle_event_device.
Qed.

Lemma handle_event_scheduled (r : response) (st : state) :
  scheduled_updates (exec (handle_event r) st)
  = (scheduled_updates st
     + (if handle_event_raises r (self st) then 0 else 1))%nat.
Proof.
  pose proof (apply_event_outcome r (self st)) as Hres.
  unfold exec, handle_event_raises. rewrite handle_event_run.
  destruct (apply_event r (self st)) as [d [[]|e]]; simpl in *;
    destruct (reads_absent_key r); try done;
    destruct (reads_unset_name r (self st)); try done; simpl; lia.
Qed.

(** An entity that has no [_attr_name] never gets one from a message, and
    one that has it keeps having it. *)
Lemma handle_event_keeps_unset (r r' : response) (st : state) :
  reads_unset_name r' (self (exec (handle_event r) st))
  = reads_unset_name r' (self st).
Proof.
  unfold reads_unset_name.
  rewrite exec_handle_event_self. unfold apply_event.
  destruct (kind_of (msg r)) as [k|]; [|done].
  destruct k; try by rewrite apply_kind_attr_name.
  unfold apply_kind, name_step. rewrite merge_all_attr_name.
  destruct (_attr_name (self st)) as [name|] eqn:Hname; cbn [fst].
  - reflexivity.
  - by rewrite merge_all_attr_name, Hname.
Qed.

Lemma feed_scheduled (events : list response) (st : state) (d : LGDevice) :
  (forall r, reads_unset_name r (self st) = reads_unset_name r d) ->
  scheduled_updates (feed events st)
  = (scheduled_updates st
     + length (filter (fun r => handle_event_raises r d = false) events))%nat.
Proof.
  unfold feed. revert st.
  induction events as [|r events IH]; intros st Hst; simpl; [lia|].
  rewrite IH, handle_event_scheduled, filter_cons.
  - unfold handle_event_raises. rewrite (Hst r).
    destruct (reads_absent_key r || reads_unset_name r d); case_decide;
      try done; simpl; lia.
  - intros r'. by rewrite handle_event_keeps_unset.
Qed.

(** X4: after a sequence of messages the number of scheduled state writes
    has grown by the number of messages handled by returning: one write
    for each of them, none for a message on which [handle_event] raises.
    Which messages those are is fixed by the entity at the start: the
    SPK_LIST_VIEW_INFO messages that hold [b_powerstatus] without
    [b_power_status] and, when [_attr_name] is unset, as on every new
    entity, all SETTING_VIEW_INFO messages. *)
Theorem feed_scheduled_updates (events : list response) (st : state) :
  scheduled_updates (feed events st)
  = (scheduled_updates st
     + length (filter (fun r => handle_event_raises r (self st) = false)
                 events))%nat.
Proof. by apply feed_scheduled. Qed.

Lemma merge_all_comm (l1 l2 : list (string * attr)) (data1 data2 : dict)
  (d : LGDevice) :
  NoDup l1.*2 -> NoDup l2.*2 ->
  (forall a, a ∈ l1.*2 -> a ∉ l2.*2) ->
  merge_all l2 data2 (merge_all l1 data1 d)
  = merge_all l1 data1 (merge_all l2 data2 d).
Proof.
  intros Hnd1 Hnd2 Hdisj. apply LGDevice_ext.
  - intros b. destruct (decide (b ∈ l1.*2)) as [Hb1|Hb1].
    + pose proof (Hdisj b Hb1) as Hb2.
      apply list_elem_of_fmap in Hb1 as [[key b'] [-> Hin]]. simpl in *.
      rewrite (merge_all_other l2) by done.
      rewrite !(merge_all_field l1 _ _ key b') by done.
      by rewrite (merge_all_other l2).
    + rewrite (merge_all_other l1 data1 (merge_all l2 data2 d)) by done.
      destruct (decide (b ∈ l2.*2)) as [Hb2|Hb2].
      * apply list_elem_of_fmap in Hb2 as [[key b'] [-> Hin]]. simpl in *.
        rewrite !(merge_all_field l2 _ _ key b') by done.
        by rewrite (merge_all_other l1).
      * by rewrite !merge_all_other.
  - by rewrite !merge_all_attr_state.
  - by rewrite !merge_all_device.
  - by rewrite !merge_all_attr_name.
Qed.

Lemma power_step_merge_all (l : list (string * attr)) (data data' : dict)
  (d : LGDevice) :
  (power_step data (merge_all l data' d)).1
  = merge_all l data' (power_step data d).1.
Proof.
  unfold power_step.
  destruct (data !! "b_powerstatus"); [|done].
  destruct (data !! "b_power_status"); [|done].
  cbn [fst]. by rewrite merge_all_set_attr_state.
Qed.

Lemma name_step_merge_all (l : list (string * attr)) (data data' : dict)
  (d : LGDevice) :
  (name_step data (merge_all l data' d)).1
  = merge_all l data' (name_step data d).1.
Proof.
  unfold name_step. rewrite merge_all_attr_name.
  destruct (_attr_name d); [|done].
  cbn [fst]. by rewrite merge_all_set_attr_name.
Qed.

Lemma power_step_name_step (data data' : dict) (d : LGDevice) :
  (power_step data (name_step data' d).1).1
  = (name_step data' (power_step data d).1).1.
Proof.
  unfold name_step. rewrite power_step_attr_name.
  destruct (_attr_name d); [|done]. cbn [fst]. unfold power_step.
  destruct (data !! "b_powerstatus"); [|done].
  by destruct (data !! "b_power_status").
Qed.

(** X5: two messages whose kinds have no attribute in common can be handled
    in either order: the instance they leave is the same. *)
Theorem handle_event_commute (k1 k2 : kind) (data1 data2 : dict) (st : state) :
  (forall a, a ∈ (field_set k1).*2 -> a ∉ (field_set k2).*2) ->
  self (exec (handle_event (event k2 data2))
          (exec (handle_event (event k1 data1)) st))
  = self (exec (handle_event (event k1 data1))
            (exec (handle_event (event k2 data2)) st)).
Proof.
  intros Hdisj. unfold event.
  rewrite !exec_handle_event_self, !apply_event_tag.
  pose proof (field_set_NoDup k1) as Hnd1.
  pose proof (field_set_NoDup k2) as Hnd2.
  pose proof (merge_all_comm (field_set k1) (field_set k2) data1 data2) as Hcomm.
  destruct k1, k2; unfold apply_kind; cbn [fst];
    repeat (rewrite power_step_merge_all || rewrite name_step_merge_all);
    rewrite ?power_step_name_step;
    try (by rewrite Hcomm);
    exfalso; eapply Hdisj; apply list_elem_of_fmap;
    first [ by exists ("i_curr_eq", A_equaliser); split;
              [|simpl; rewrite !elem_of_cons; auto 10]
          | by exists ("i_curr_func", A_function); split;
              [|simpl; rewrite !elem_of_cons; auto 10]
          | by exists ("i_bass", A_bass); split;
              [|simpl; rewrite !elem_of_cons; auto 10]
          | by exists ("i_rear_min", A_rear_volume_min); split;
              [|simpl; rewrite !elem_of_cons; auto 10] ].
Qed.

Lemma handle_event_commute_witness :
  self (exec (handle_event (event SPK_LIST_VIEW_INFO {[ "i_vol" := PInt 20 ]}))
          (exec (handle_event (event EQ_VIEW_INFO {[ "i_bass" := PInt 3 ]})) fresh))
  = self (exec (handle_event (event EQ_VIEW_INFO {[ "i_bass" := PInt 3 ]}))
            (exec (handle_event (event SPK_LIST_VIEW_INFO {[ "i_vol" := PInt 20 ]}))
               fresh)).
Proof.
  apply (handle_event_commute EQ_VIEW_INFO SPK_LIST_VIEW_INFO
           {[ "i_bass" := PInt 3 ]} {[ "i_vol" := PInt 20 ]} fresh).
  apply Forall_forall. apply (bool_decide_unpack _). by vm_compute.
Defined.

Lemma merge_all_override (l : list (string * attr)) (data1 data2 : dict)
  (d : LGDevice) :
  NoDup l.*2 ->
  (forall key a, (key, a) ∈ l -> is_Some (data1 !! key) -> is_Some (data2 !! key)) ->
  merge_all l data2 (merge_all l data1 d) = merge_all l data2 d.
Proof.
  intros Hnd Hsub. apply LGDevice_ext.
  - intros b. destruct (decide (b ∈ l.*2)) as [Hb|Hb].
    + apply list_elem_of_fmap in Hb as [[key b'] [-> Hin]]. simpl.
      rewrite !(merge_all_field l _ _ key b') by done.
      destruct (data2 !! key) as [v|] eqn:H2; [done|]. simpl.
      destruct (data1 !! key) as [w|] eqn:H1; [|done].
      destruct (Hsub key b' Hin) as [v Hv]; [by rewrite H1|].
      by rewrite H2 in Hv.
    + by rewrite !merge_all_other.
  - by rewrite !merge_all_attr_state.
  - by rewrite !merge_all_device.
  - by rewrite !merge_all_attr_name.
Qed.

Lemma name_step_override (data1 data2 : dict) (d : LGDevice) :
  (is_Some (data1 !! "s_user_name") -> is_Some (data2 !! "s_user_name")) ->
  (name_step data2 (name_step data1 d).1).1 = (name_step data2 d).1.
Proof.
  intros Hsub. unfold name_step at 2.
  destruct (_attr_name d) as [name|] eqn:Hname; cbn [fst];
    unfold name_step; [|by rewrite Hname].
  rewrite Hname. cbn [_attr_name set_attr_name fst].
  destruct (data2 !! "s_user_name") as [v|] eqn:H2; [apply set_attr_name_twice|].
  destruct (data1 !! "s_user_name") as [w|] eqn:H1; [|apply set_attr_name_twice].
  destruct Hsub as [v Hv]; [by eexists|done].
Qed.

Lemma declared_fields_attr (k : kind) (key : string) (a : attr) :
  (key, a) ∈ field_set k -> (key, Attr a) ∈ declared_fields k.
Proof.
  intros Hin. unfold declared_fields. apply elem_of_app. left.
  apply list_elem_of_fmap. by exists (key, a).
Qed.

(** X6: a message overrides an earlier message of its kind that carried no
    key of the kind's declared fields that the later one lacks: the
    instance after both is the instance after the later one alone.  For
    SPK_LIST_VIEW_INFO the later message must also carry the two power
    keys when the earlier one did. *)
Theorem handle_event_overrides (k : kind) (data1 data2 : dict) (st : state) :
  (forall key f, (key, f) ∈ declared_fields k ->
     is_Some (data1 !! key) -> is_Some (data2 !! key)) ->
  (k = SPK_LIST_VIEW_INFO ->
   is_Some (data1 !! "b_powerstatus") -> is_Some (data1 !! "b_power_status") ->
   is_Some (data2 !! "b_powerstatus") /\ is_Some (data2 !! "b_power_status")) ->
  self (exec (handle_event (event k data2))
          (exec (handle_event (event k data1)) st))
  = self (exec (handle_event (event k data2)) st).
Proof.
  intros Hsub Hpower. unfold event.
  rewrite !exec_handle_event_self, !apply_event_tag.
  assert (Hall : forall d, merge_all (field_set k) data2
                             (merge_all (field_set k) data1 d)
                           = merge_all (field_set k) data2 d).
  { intros d. apply merge_all_override; [apply field_set_NoDup|].
    intros key a Hin. by apply (Hsub key (Attr a)), declared_fields_attr. }
  pose proof (Hall (self st)) as Hov.
  destruct k; unfold apply_kind; cbn [fst]; try exact Hov.
  - destruct (data1 !! "b_powerstatus") as [p1|] eqn:Hp1;
      [|by unfold power_step at 2; rewrite Hp1; cbn [fst]; rewrite Hov].
    destruct (data1 !! "b_power_status") as [s1|] eqn:Hs1;
      [|by unfold power_step at 2; rewrite Hp1, Hs1; cbn [fst]; rewrite Hov].
    destruct Hpower as [[p2 Hp2] [s2 Hs2]]; [done|by eexists|by eexists|].
    unfold power_step. rewrite Hp1, Hs1, Hp2, Hs2. cbn [fst].
    rewrite merge_all_set_attr_state, Hov. by destruct (merge_all _ _ _).
  - rewrite !name_step_merge_all, Hall, name_step_override; [done|].
    apply (Hsub "s_user_name" DisplayName).
    unfold declared_fields. apply elem_of_app. right. apply list_elem_of_singleton.
    done.
Qed.

Lemma handle_event_overrides_witness :
  self (exec (handle_event (event SPK_LIST_VIEW_INFO
                              {[ "i_vol" := PInt 20; "i_vol_max" := PInt 40 ]}))
          (exec (handle_event (event SPK_LIST_VIEW_INFO {[ "i_vol" := PInt 7 ]}))
             fresh))
  = self (exec (handle_event (event SPK_LIST_VIEW_INFO
                                {[ "i_vol" := PInt 20; "i_vol_max" := PInt 40 ]}))
            fresh).
Proof.
  apply (handle_event_overrides SPK_LIST_VIEW_INFO {[ "i_vol" := PInt 7 ]}
           {[ "i_vol" := PInt 20; "i_vol_max" := PInt 40 ]} fresh).
  - intros key f Hin. unfold declared_fields in Hin. simpl in Hin.
    rewrite !elem_of_cons, elem_of_nil in Hin.
    destruct Hin as [[= -> ->]|[[= -> ->]|[[= -> ->]|[[= -> ->]|[]]]]];
      vm_compute; intros [v Hv]; by try eexists.
  - intros _ [v Hv]. by vm_compute in Hv.
Defined.

(** ** Commands *)

Lemma getattr_set_device (a : attr) (t : option temescal) (d : LGDevice) :
  getattr a (set_device t d) = getattr a d.
Proof. by destruct a. Qed.

Lemma float_mul_raises (f : spec_float) (b : value) (e : exn) :
  float_mul f b = Raise e -> e = TypeError \/ e = OverflowError.
Proof.
  unfold float_mul, to_float, float_of_int.
  destruct b as [|b|z|g|s|l]; try (intros [= <-]; by left); try done;
    (destruct (is_inf _); [intros [= <-]; by right|done]).
Qed.

Lemma int_of_float_raises (f : spec_float) (e : exn) :
  int_of_float f = Raise e -> e = OverflowError \/ e = ValueError.
Proof. destruct f; simpl; try done; intros [= <-]; auto. Qed.

Lemma list_index_raises (xs : list string) (x : string) (e : exn) :
  list_index xs x = Raise e -> e = ValueError.
Proof.
  induction xs as [|y ys IH]; simpl; [by intros [= <-]|].
  destruct (decide (y = x)); [done|].
  destruct (list_index ys x); [done|]. intros [= <-]. by apply IH.
Qed.

Lemma update_run (st : state) :
  update st =
  match _device (self st) with
  | Some t =>
      (with_self
         (set_device
            (Some {| requests := requests t ++ [get_eq; get_info; get_func; get_settings] |})
            (self st)) st,
       Return ())
  | None => (st, Raise AttributeError)
  end.
Proof.
  unfold update, device, call, assign_device, mbind, M_bind, with_self.
  destruct st as [d n]; cbn.
  destruct (_device d) as [t|]; cbn; [|done].
  by rewrite <- !(assoc_L (++)).
Qed.

Lemma run_command_cases (functions equalisers : list string) (c : command)
  (st : state) :
  match result (run_command functions equalisers c) st with
  | Raise _ => exec (run_command functions equalisers c) st = st
  | Return _ =>
      exists t rs,
        _device (self st) = Some t /\
        exec (run_command functions equalisers c) st
        = with_self (set_device (Some {| requests := requests t ++ rs |}) (self st)) st /\
        length rs = match c with Update => 4%nat | _ => 1%nat end
  end.
Proof.
  unfold result, exec. destruct c; simpl run_command.
  { rewrite update_run. destruct (_device (self st)) as [t|] eqn:Hd; [|done].
    cbn [fst snd]. by exists t, [get_eq; get_info; get_func; get_settings]. }
  all: destruct st as [d n];
    unfold set_volume_level, mute_volume, select_source, select_sound_mode,
      turn_on, turn_off, _set_power, read, eval, device, call, assign_device,
      mbind, M_bind;
    cbn [fst snd self scheduled_updates];
    try (destruct (float_mul _ _) as [p|e]; cbn [fst snd]; [|done]);
    (destruct (_device d) as [t|] eqn:Hd; cbn [fst snd]; [|done]);
    try (destruct (int_of_float _) as [k|e]; cbn [fst snd]; [|done]);
    try (destruct (list_index _ _) as [i|e]; cbn [fst snd]; [|done]).
  - by exists t, [set_volume k].
  - by exists t, [set_mute mute].
  - by exists t, [set_func i].
  - by exists t, [set_eq i].
  - eexists t, [_]. done.
  - eexists t, [_]. done.
Qed.

(** X7: a command either raises, and then the entity is exactly as it was
    and no request was made, or it returns, and then the entity was
    connected and differs only in the requests made on the connection:
    four more for [update], one more for every other command.  No command
    changes an attribute or the power state, or schedules a state write. *)
Theorem command_outcome (functions equalisers : list string) (c : command)
  (st : state) :
  match result (run_command functions equalisers c) st with
  | Raise _ => exec (run_command functions equalisers c) st = st
  | Return _ =>
      exists t rs,
        _device (self st) = Some t /\
        exec (run_command functions equalisers c) st
        = with_self (set_device (Some {| requests := requests t ++ rs |}) (self st)) st /\
        length rs = match c with Update => 4%nat | _ => 1%nat end
  end.
Proof. apply run_command_cases. Qed.

(** X8: before [_connect] every command raises and leaves the entity as it
    was: [AttributeError] from the missing connection object, except that
    [set_volume_level] first multiplies by [_volume_max] and raises the
    error of the product when there is one. *)
Theorem command_not_connected (functions equalisers : list string)
  (c : command) (st : state) :
  _device (self st) = None ->
  exec (run_command functions equalisers c) st = st /\
  result (run_command functions equalisers c) st
  = match c with
    | SetVolumeLevel volume =>
        match float_mul volume (_volume_max (self st)) with
        | Raise e => Raise e
        | Return _ => Raise AttributeError
        end
    | _ => Raise AttributeError
    end.
Proof.
  intros Hd. unfold result, exec. destruct c; simpl run_command.
  { by rewrite update_run, Hd. }
  all: destruct st as [d n]; simpl in Hd;
    unfold set_volume_level, mute_volume, select_source, select_sound_mode,
      turn_on, turn_off, _set_power, read, eval, device, call, assign_device,
      mbind, M_bind;
    cbn [fst snd self scheduled_updates getattr];
    try (destruct (float_mul _ _) as [p|e]; cbn [fst snd]; [|done]);
    by rewrite Hd.
Qed.

Lemma command_not_connected_witness :
  exec (run_command fixture_functions fixture_equalisers (SelectSource "Wifi")) fresh
  = fresh /\
  result (run_command fixture_functions fixture_equalisers (SelectSource "Wifi")) fresh
  = Raise AttributeError.
Proof.
  apply (command_not_connected fixture_functions fixture_equalisers
           (SelectSource "Wifi") fresh).
  reflexivity.
Defined.

Lemma run_command_getattr (functions equalisers : list string) (c : command)
  (st : state) (a : attr) :
  getattr a (self (exec (run_command functions equalisers c) st))
  = getattr a (self st).
Proof.
  pose proof (run_command_cases functions equalisers c st) as Hc.
  destruct (result _ _); [|by rewrite Hc].
  destruct Hc as (t & rs & _ & -> & _). apply getattr_set_device.
Qed.

Lemma run_command_device (functions equalisers : list string) (c : command)
  (st : state) (t : temescal) :
  _device (self st) = Some t ->
  exists rs,
    _device (self (exec (run_command functions equalisers c) st))
    = Some {| requests := requests t ++ rs |}.
Proof.
  intros Hd.
  pose proof (run_command_cases functions equalisers c st) as Hc.
  destruct (result _ _).
  - destruct Hc as (t' & rs & Hd' & -> & _). exists rs.
    rewrite Hd in Hd'. by injection Hd' as <-.
  - exists []. by rewrite Hc, app_nil_r, Hd; destruct t.
Qed.

Lemma run_command_connected (functions equalisers : list string) (c : command)
  (st : state) :
  is_Some (_device (self st)) ->
  result (run_command functions equalisers c) st ≠ Raise AttributeError.
Proof.
  intros [t Hd]. unfold result. destruct c; simpl run_command.
  { by rewrite update_run, Hd. }
  all: destruct st as [d n]; simpl in Hd;
    unfold set_volume_level, mute_volume, select_source, select_sound_mode,
      turn_on, turn_off, _set_power, read, eval, device, call, assign_device,
      mbind, M_bind;
    cbn [fst snd self scheduled_updates getattr];
    try (destruct (float_mul _ _) as [p|e] eqn:Hp; cbn [fst snd];
         [|by apply float_mul_raises in Hp as [->| ->]]);
    rewrite Hd; cbn [fst snd];
    try (destruct (int_of_float _) as [k|e] eqn:Hk; cbn [fst snd];
         [|by apply int_of_float_raises in Hk as [->| ->]]);
    try (destruct (list_index _ _) as [i|e] eqn:Hi; cbn [fst snd];
         [|by apply list_index_raises in Hi as ->]);
    done.
Qed.

Lemma run_action_device (functions equalisers : list string) (a : action)
  (st : state) (t : temescal) :
  _device (self st) = Some t ->
  exists rs,
    _device (self (exec (run_action functions equalisers a) st))
    = Some {| requests := requests t ++ rs |}.
Proof.
  intros Hd. destruct a as [r|c]; simpl.
  - exists []. by rewrite exec_handle_event_device, app_nil_r, Hd; destruct t.
  - by apply run_command_device.
Qed.

Lemma run_actions_device (functions equalisers : list string)
  (actions : list action) (st : state) (t : temescal) :
  _device (self st) = Some t ->
  exists rs,
    _device (self (run_actions functions equalisers actions st))
    = Some {| requests := requests t ++ rs |}.
Proof.
  unfold run_actions. revert st t.
  induction actions as [|a actions IH]; intros st t Hd; simpl.
  - exists []. by rewrite app_nil_r, Hd; destruct t.
  - destruct (run_action_device functions equalisers a st t Hd) as [rs1 Hd1].
    destruct (IH _ _ Hd1) as [rs2 Hd2]. exists (rs1 ++ rs2).
    rewrite Hd2. simpl. by rewrite (assoc_L (++)).
Qed.

(** X9: once connected, always connected, and the requests made are never
    lost: after any history of messages and commands the connection object
    holds the requests it held before, in their order, followed by the new
    ones. *)
Theorem requests_append_only (functions equalisers : list string)
  (actions : list action) (st : state) (t : temescal) :
  _device (self st) = Some t ->
  exists rs,
    _device (self (run_actions functions equalisers actions st))
    = Some {| requests := requests t ++ rs |}.
Proof. apply run_actions_device. Qed.

Lemma requests_append_only_witness :
  exists rs,
    _device (self (run_actions fixture_functions fixture_equalisers
                     [Call (MuteVolume true);
                      Deliver (event FUNC_VIEW_INFO {[ "i_curr_func" := PInt 1 ]});
                      Call (SelectSource "NoSuchInput");
                      Call TurnOff]
                     connected))
    = Some {| requests := [get_product_info; get_mac_info; get_eq; get_info;
                           get_func; get_settings] ++ rs |}.
Proof.
  apply (requests_append_only fixture_functions fixture_equalisers _ connected
           {| requests := [get_product_info; get_mac_info; get_eq; get_info;
                           get_func; get_settings] |}).
  reflexivity.
Defined.

Lemma _connect_run (open : value -> value -> outcome ()) (st : state) :
  _connect open st
  = match open (_host (self st)) (_port (self st)) with
    | Return _ =>
        (with_self
           (set_device
              (Some {| requests := [get_product_info; get_mac_info; get_eq;
                                    get_info; get_func; get_settings] |})
              (self st)) st,
         Return ())
    | Raise e => (st, Raise e)
    end.
Proof.
  unfold _connect, update, read, temescal_new, eval, device, call,
    assign_device, mbind, M_bind, mret, M_ret, with_self.
  destruct st as [d n]. cbn [self scheduled_updates getattr].
  destruct (open (_host d) (_port d)) as [[]|e]; reflexivity.
Qed.

(** X10: after a [_connect] that returned no command ever raises
    [AttributeError], whatever messages were delivered and commands called
    in between. *)
Theorem connected_no_AttributeError (functions equalisers : list string)
  (open : value -> value -> outcome ()) (actions : list action) (c : command)
  (st : state) :
  result (_connect open) st = Return () ->
  result (run_command functions equalisers c)
    (run_actions functions equalisers actions (exec (_connect open) st))
  ≠ Raise AttributeError.
Proof.
  intros Hconnect. apply run_command_connected.
  destruct (run_actions_device functions equalisers actions
              (exec (_connect open) st)
              {| requests := [get_product_info; get_mac_info; get_eq; get_info;
                              get_func; get_settings] |}) as [rs Hrs].
  { revert Hconnect. unfold result, exec. rewrite _connect_run.
    by destruct (open _ _). }
  by rewrite Hrs.
Qed.

Lemma connected_no_AttributeError_witness :
  result (run_command fixture_functions fixture_equalisers (SelectSource "Aux"))
    (run_actions fixture_functions fixture_equalisers
       [Deliver (event SETTING_VIEW_INFO {[ "i_curr_eq" := PInt 1 ]});
        Call (SelectSoundMode "NoSuchMode");
        Call (MuteVolume true)]
       (exec (_connect reachable) fresh))
  ≠ Raise AttributeError.
Proof.
  apply (connected_no_AttributeError fixture_functions fixture_equalisers
           reachable).
  reflexivity.
Defined.

Lemma exec_handle_event_fixed (r : response) (st : state) (a : attr) :
  (forall k, a ∉ (field_set k).*2) ->
  getattr a (self (exec (handle_event r) st)) = getattr a (self st).
Proof.
  intros Ha. rewrite exec_handle_event_self. unfold apply_event.
  destruct (kind_of (msg r)) as [k|]; [|done].
  rewrite apply_kind_getattr. by apply merge_all_other.
Qed.

Lemma run_actions_fixed (functions equalisers : list string)
  (actions : list action) (st : state) (a : attr) :
  (forall k, a ∉ (field_set k).*2) ->
  getattr a (self (run_actions functions equalisers actions st))
  = getattr a (self st).
Proof.
  intros Ha. unfold run_actions. revert st.
  induction actions as [|[r|c] actions IH]; intros st; simpl; [done|..];
    rewrite IH.
  - by apply exec_handle_event_fixed.
  - apply run_command_getattr.
Qed.

(** X11: the address, the unique id and the mute flag of an entity are
    those of its construction for ever: no message and no command changes
    [_host], [_port], [_attr_unique_id] or [_mute], so [is_volume_muted]
    is the 0 of [__init__] whatever the device reports and whatever
    [mute_volume] is called with. *)
Theorem identity_and_mute_fixed (functions equalisers : list string)
  (actions : list action) (host port unique_id : value) (n : nat) :
  let st := run_actions functions equalisers actions
              {| self := __init__ host port unique_id; scheduled_updates := n |} in
  _host (self st) = host /\
  _port (self st) = port /\
  _attr_unique_id (self st) = unique_id /\
  is_volume_muted (self st) = PInt 0.
Proof.
  pose proof (fun a H => run_actions_fixed functions equalisers actions
                {| self := __init__ host port unique_id; scheduled_updates := n |}
                a H) as Hfix.
  simpl. repeat split;
    [apply (Hfix A_host)|apply (Hfix A_port)|apply (Hfix A_attr_unique_id)
    |apply (Hfix A_mute)];
    intros k; destruct k; apply (bool_decide_unpack _); by vm_compute.
Qed.

(** ** The current source and sound mode *)

Lemma list_getitem_nat {A} (xs : list A) (n : nat) (x : A) :
  xs !! n = Some x -> list_getitem xs (PInt (Z.of_nat n)) = Return x.
Proof.
  intros Hx. pose proof (lookup_lt_Some _ _ _ Hx) as Hn.
  unfold list_getitem. cbn [as_int].
  destruct (Z.ltb_spec (Z.of_nat n) 0) as [|_]; [lia|].
  destruct (Z.ltb_spec (Z.of_nat n) 0) as [|_]; [lia|].
  destruct (Z.leb_spec (Z.of_nat (length xs)) (Z.of_nat n)) as [|_]; [lia|].
  cbn [orb]. by rewrite Nat2Z.id, Hx.
Qed.

Lemma list_getitem_in {A} (xs : list A) (i : value) (x : A) :
  list_getitem xs i = Return x -> x ∈ xs.
Proof.
  unfold list_getitem. destruct (as_int i) as [z|]; [|done].
  cbn zeta. destruct (_ || _); [done|].
  destruct (xs !! _) as [y|] eqn:Hy; [|done].
  intros [= <-]. by eapply list_elem_of_lookup_2.
Qed.

Lemma current_name_at (table : list string) (n : nat) (name : string) :
  table !! n = Some name ->
  current_name table (PInt (Z.of_nat n)) = Return (Some name).
Proof.
  intros Hn. pose proof (lookup_lt_Some _ _ _ Hn) as Hlt.
  unfold current_name, eq_int, ge_int, compare_int.
  destruct (Z.compare_spec (Z.of_nat n) (-1)); [lia| lia|].
  destruct (Z.compare_spec (Z.of_nat n) (Z.of_nat (length table))); [lia| |lia].
  unfold mbind, outcome_bind. by rewrite (list_getitem_nat _ _ _ Hn).
Qed.

(** X12: a name reported by [source] or [sound_mode] is a name of the
    table, whatever the attribute holds; the other outcomes are [None]
    and an exception. *)
Theorem current_name_in_table (table : list string) (index : value)
  (name : string) :
  current_name table index = Return (Some name) -> name ∈ table.
Proof.
  unfold current_name. destruct (eq_int index (-1)); [done|].
  destruct (ge_int index _) as [[]|e]; unfold mbind, outcome_bind; try done.
  destruct (list_getitem table index) as [x|e] eqn:Hx; [|done].
  intros [= <-]. by eapply list_getitem_in.
Qed.

Lemma current_name_in_table_witness : "Bluetooth" ∈ fixture_functions.
Proof.
  apply (current_name_in_table fixture_functions (PInt 1) "Bluetooth").
  reflexivity.
Defined.

(** X13: the guard of [source] and [sound_mode] sets aside the index -1
    only: for any other negative index the name counted from the end of
    the table is reported, and below the start of the table the property
    raises [IndexError]. *)
Theorem current_name_negative (table : list string) (z : Z) :
  z < -1 ->
  current_name table (PInt z)
  = if z <? - Z.of_nat (length table) then Raise IndexError
    else Return (table !! Z.to_nat (Z.of_nat (length table) + z)).
Proof.
  intros Hz. unfold current_name, eq_int, ge_int, compare_int.
  destruct (Z.compare_spec z (-1)); [lia| |lia].
  destruct (Z.compare_spec z (Z.of_nat (length table))); [lia| |lia].
  unfold mbind, outcome_bind, list_getitem. cbn [as_int].
  destruct (Z.ltb_spec z 0) as [_|]; [|lia].
  destruct (Z.leb_spec (Z.of_nat (length table)) (z + Z.of_nat (length table)))
    as [|_]; [lia|].
  rewrite orb_false_r.
  destruct (Z.ltb_spec (z + Z.of_nat (length table)) 0);
    destruct (Z.ltb_spec z (- Z.of_nat (length table))); try lia; [done|].
  rewrite (Z.add_comm z).
  destruct (table !! _) as [x|] eqn:Hx; [done|].
  apply lookup_ge_None in Hx. lia.
Qed.

Lemma current_name_negative_witness :
  current_name fixture_functions (PInt (-2)) = Return (Some "Bluetooth").
Proof.
  apply (current_name_negative fixture_functions (-2)). lia.
Defined.

(** ** The lists of sources and sound modes *)

Lemma append_names_nat (table : list string) (ns : list nat)
  (names : list string) :
  append_names table ((fun n => PInt (Z.of_nat n)) <$> ns) names
  = Return (names ++ omap (fun n => table !! n) ns).
Proof.
  revert names. induction ns as [|n ns IH]; intros names.
  { simpl. by rewrite app_nil_r. }
  rewrite fmap_cons. cbn [append_names].
  change (omap (fun n => table !! n) (n :: ns))
    with (match table !! n with
          | Some name => name :: omap (fun n => table !! n) ns
          | None => omap (fun n => table !! n) ns
          end).
  unfold lt_int, compare_int.
  destruct (Z.compare_spec (Z.of_nat n) (Z.of_nat (length table)));
    unfold mbind at 1, outcome_bind at 1.
  - rewrite IH. destruct (table !! n) as [x|] eqn:Hx; [|done].
    apply lookup_lt_Some in Hx. lia.
  - destruct (table !! n) as [x|] eqn:Hx.
    + rewrite (list_getitem_nat _ _ _ Hx). unfold mbind, outcome_bind.
      rewrite IH. by rewrite <- (assoc_L (++)).
    + apply lookup_ge_None in Hx. lia.
  - rewrite IH. destruct (table !! n) as [x|] eqn:Hx; [|done].
    apply lookup_lt_Some in Hx. lia.
Qed.

(** X14: when the device reports a list of indices none of which is
    negative, [source_list] and [sound_mode_list] return the names at the
    indices that are inside the table, sorted; the indices at or beyond
    the end of the table are skipped. *)
Theorem available_names_nat (table : list string) (ns : list nat) :
  available_names table (PList ((fun n => PInt (Z.of_nat n)) <$> ns))
  = Return (sorted (omap (fun n => table !! n) ns)).
Proof.
  unfold available_names. cbn [items]. unfold mbind, outcome_bind.
  by rewrite append_names_nat.
Qed.

Lemma append_names_in (table : list string) (indices : list value)
  (acc names : list string) :
  append_names table indices acc = Return names ->
  forall name, name ∈ names -> name ∈ acc \/ name ∈ table.
Proof.
  revert acc. induction indices as [|index rest IH]; intros acc.
  { intros [= <-] name Hname. by left. }
  cbn [append_names]. destruct (lt_int index _) as [[]|e];
    unfold mbind at 1, outcome_bind at 1; [| |done].
  - destruct (list_getitem table index) as [x|e] eqn:Hx;
      unfold mbind, outcome_bind; [|done].
    intros Hrest name Hname.
    destruct (IH _ Hrest name Hname) as [Hacc|Htable]; [|by right].
    apply elem_of_app in Hacc as [Hacc|Hx']; [by left|right].
    apply list_elem_of_singleton in Hx' as ->. by eapply list_getitem_in.
  - apply IH.
Qed.

(** X15: whatever the attribute holds, a list returned by [source_list]
    or [sound_mode_list] is sorted and holds names of the table only. *)
Theorem available_names_in_table (table : list string) (indices : value)
  (names : list string) :
  available_names table indices = Return names ->
  Sorted String.le names /\ forall name, name ∈ names -> name ∈ table.
Proof.
  intros Hnames. split; [by eapply available_names_sorted|].
  revert Hnames. unfold available_names.
  destruct (items indices) as [l|e]; unfold mbind at 1, outcome_bind at 1; [|done].
  destruct (append_names table l []) as [ns|e] eqn:Hns;
    unfold mbind, outcome_bind; [|done].
  intros [= <-] name Hname.
  unfold sorted in Hname. rewrite merge_sort_Permutation in Hname.
  destruct (append_names_in _ _ _ _ Hns name Hname) as [Hnil|Htable]; [|done].
  by apply elem_of_nil in Hnil.
Qed.

Lemma available_names_in_table_witness :
  Sorted String.le ["Aux"; "Wifi"] /\
  forall name, name ∈ ["Aux"; "Wifi"] -> name ∈ fixture_functions.
Proof.
  apply (available_names_in_table fixture_functions
           (PList [PInt 0; PInt 7; PInt (-1)])).
  reflexivity.
Defined.

(** ** Selecting by name and reading back *)

Lemma list_index_found (xs : list string) (x : string) :
  x ∈ xs -> exists n, list_index xs x = Return (Z.of_nat n) /\ xs !! n = Some x.
Proof.
  induction xs as [|y ys IH]; intros Hx; [by apply elem_of_nil in Hx|].
  simpl. destruct (decide (y = x)) as [->|Hne]; [by exists 0%nat|].
  apply elem_of_cons in Hx as [->|Hx]; [done|].
  destruct (IH Hx) as (n & -> & Hn). exists (S n).
  by rewrite Nat2Z.inj_succ.
Qed.

Lemma handle_event_stores (k : kind) (key : string) (a : attr) (v : value)
  (rest : dict) (st : state) :
  (key, a) ∈ field_set k ->
  getattr a (self (exec (handle_event (event k (<[key := v]> rest))) st)) = v.
Proof.
  intros Hin. unfold event.
  rewrite exec_handle_event_self, apply_event_tag, apply_kind_getattr.
  rewrite (merge_all_field _ _ _ key a) by (by try apply field_set_NoDup).
  by rewrite lookup_insert_eq.
Qed.

(** X16: selecting a source by name and reading it back.  On a connected
    entity [select_source] with a name of the table returns after one
    [set_func] request, and once the device reports the index of that
    request as its current function, in a FUNC_VIEW_INFO or a
    SPK_LIST_VIEW_INFO message, [source] is the name selected. *)
Theorem select_source_round_trip (functions : list string) (name : string)
  (st : state) (t : temescal) (k : kind) :
  _device (self st) = Some t ->
  name ∈ functions ->
  ("i_curr_func", A_function) ∈ field_set k ->
  exists index,
    select_source functions name st = (with_request (set_func index) st, Return ()) /\
    forall rest st',
      source functions
        (self (exec (handle_event (event k (<["i_curr_func" := PInt index]> rest))) st'))
      = Return (Some name).
Proof.
  intros Hd Hname Hk.
  destruct (list_index_found functions name Hname) as (n & Hindex & Hn).
  exists (Z.of_nat n). split.
  - unfold select_source, with_request, device, call, assign_device, eval,
      mbind, M_bind, with_self.
    by rewrite Hd, Hindex.
  - intros rest st'. unfold source.
    change (_function ?d) with (getattr A_function d).
    rewrite handle_event_stores by done. by apply current_name_at.
Qed.

Lemma select_source_round_trip_witness :
  exists index,
    select_source fixture_functions "Aux" connected
    = (with_request (set_func index) connected, Return ()) /\
    forall rest st',
      source fixture_functions
        (self (exec (handle_event
                       (event FUNC_VIEW_INFO (<["i_curr_func" := PInt index]> rest)))
                 st'))
      = Return (Some "Aux").
Proof.
  apply (select_source_round_trip fixture_functions "Aux" connected
           {| requests := [get_product_info; get_mac_info; get_eq; get_info;
                           get_func; get_settings] |} FUNC_VIEW_INFO).
  - reflexivity.
  - apply (bool_decide_unpack _). by vm_compute.
  - apply (bool_decide_unpack _). by vm_compute.
Defined.

(** X17: selecting a sound mode by name and reading it back.  On a
    connected entity [select_sound_mode] with a name of the table returns
    after one [set_eq] request, and once the device reports the index of
    that request as its current equaliser, in an EQ_VIEW_INFO or a
    SETTING_VIEW_INFO message, [sound_mode] is the name selected. *)
Theorem select_sound_mode_round_trip (equalisers : list string) (name : string)
  (st : state) (t : temescal) (k : kind) :
  _device (self st) = Some t ->
  name ∈ equalisers ->
  ("i_curr_eq", A_equaliser) ∈ field_set k ->
  exists index,
    select_sound_mode equalisers name st
    = (with_request (set_eq index) st, Return ()) /\
    forall rest st',
      sound_mode equalisers
        (self (exec (handle_event (event k (<["i_curr_eq" := PInt index]> rest))) st'))
      = Return (Some name).
Proof.
  intros Hd Hname Hk.
  destruct (list_index_found equalisers name Hname) as (n & Hindex & Hn).
  exists (Z.of_nat n). split.
  - unfold select_sound_mode, with_request, device, call, assign_device, eval,
      mbind, M_bind, with_self.
    by rewrite Hd, Hindex.
  - intros rest st'. unfold sound_mode.
    change (_equaliser ?d) with (getattr A_equaliser d).
    rewrite handle_event_stores by done. by apply current_name_at.
Qed.

Lemma select_sound_mode_round_trip_witness :
  exists index,
    select_sound_mode fixture_equalisers "Bass" connected
    = (with_request (set_eq index) connected, Return ()) /\
    forall rest st',
      sound_mode fixture_equalisers
        (self (exec (handle_event
                       (event SETTING_VIEW_INFO (<["i_curr_eq" := PInt index]> rest)))
                 st'))
      = Return (Some "Bass").
Proof.
  apply (select_sound_mode_round_trip fixture_equalisers "Bass" connected
           {| requests := [get_product_info; get_mac_info; get_eq; get_info;
                           get_func; get_settings] |} SETTING_VIEW_INFO).
  - reflexivity.
  - apply (bool_decide_unpack _). by vm_compute.
  - apply (bool_decide_unpack _). by vm_compute.
Defined.

(** ** The exceptions of the volume level *)

Section NonZero.

Local Abbreviation fexp := (SpecFloat.fexp prec emax).

Lemma shr_fexp_pos (m e : Z) (l : location) :
  0 < m -> emin prec emax < e + Zdigits2 m ->
  0 < shr_m (shr_fexp prec emax m e l).1 /\
  emin prec emax <= (shr_fexp prec emax m e l).2.
Proof.
  intros Hm He. destruct (shr_fexp_spec m e l) as [-> ->]; [lia|].
  set (k := Z.max 0 (fexp (Zdigits2 m + e) - e)).
  destruct m as [|p|p]; try lia.
  pose proof (Zdigits2_lower p) as Hlow.
  assert (Hk : 0 <= k <= Zdigits2 (Zpos p) - 1).
  { subst k. unfold SpecFloat.fexp, emin, prec, emax in *. simpl Zdigits2 in *. lia. }
  split.
  - apply Z.div_str_pos. split; [apply Z.pow_pos_nonneg; lia|].
    eapply Z.le_trans; [|exact Hlow]. apply Z.pow_le_mono_r; lia.
  - subst k. unfold SpecFloat.fexp. lia.
Qed.

Lemma binary_round_aux_nonzero (s : bool) (q e : Z) (l : location) :
  0 < q -> emin prec emax < e + Zdigits2 q ->
  is_fzero (binary_round_aux prec emax s q e l) = false.
Proof.
  intros Hq He. unfold binary_round_aux.
  pose proof (shr_fexp_pos q e l Hq He) as [Hm1 He1].
  destruct (shr_fexp prec emax q e l) as [mrs1 e1]. cbn [fst snd] in Hm1, He1.
  pose proof (round_nearest_even_bounds (shr_m mrs1) (loc_of_shr_record mrs1)).
  set (m1 := round_nearest_even (shr_m mrs1) (loc_of_shr_record mrs1)) in *.
  assert (Hm1' : 0 < m1) by lia.
  assert (Hd1 : 0 < Zdigits2 m1) by (destruct m1; simpl; lia).
  pose proof (shr_fexp_pos m1 e1 loc_Exact Hm1') as [Hm2 _]; [lia|].
  destruct (shr_fexp prec emax m1 e1 loc_Exact) as [mrs2 e2].
  cbn [fst snd] in Hm2.
  destruct (shr_m mrs2) as [|m2|m2]; [lia| |lia].
  by destruct (e2 <=? emax - prec).
Qed.

Lemma shl_align_emin (p : positive) (e' : Z) :
  emin prec emax <= e' -> emin prec emax <= (shl_align p 0 e').2.
Proof.
  intros He. unfold shl_align. by destruct (e' - 0).
Qed.

Lemma binary_round_nonzero (s : bool) (p : positive) :
  is_fzero (binary_round prec emax s p 0) = false.
Proof.
  unfold binary_round.
  pose proof (shl_align_emin p (fexp (Zpos (digits2_pos p) + 0))) as He.
  destruct (shl_align p 0 _) as [mz ez]. cbn [snd] in He.
  apply binary_round_aux_nonzero; [lia|].
  assert (0 < Zdigits2 (Zpos mz)) by (simpl; lia).
  assert (emin prec emax <= ez); [|lia].
  apply He. unfold SpecFloat.fexp. lia.
Qed.

Lemma float_of_int_nonzero (z : Z) (f : spec_float) :
  z ≠ 0 -> float_of_int z = Return f -> is_fzero f = false.
Proof.
  intros Hz. unfold float_of_int, binary_normalize.
  destruct z as [|p|p]; [done|..];
    (destruct (is_inf _); [done|]; intros [= <-]; apply binary_round_nonzero).
Qed.

End NonZero.

Lemma float_of_int_raises (z : Z) (e : exn) :
  float_of_int z = Raise e -> e = OverflowError.
Proof. unfold float_of_int. destruct (is_inf _); [by intros [= <-]|done]. Qed.

Lemma ne_int_as_int (b : value) (y : Z) :
  ne_int b 0 = true -> as_int b = Some y -> y ≠ 0.
Proof.
  unfold ne_int, eq_int, compare_int, as_int.
  destruct b as [|b|z|g|s|l]; try done; intros Hne [= <-] Hy;
    rewrite Hy in Hne; done.
Qed.

Lemma ne_int_to_float (b : value) (y : spec_float) :
  ne_int b 0 = true -> to_float b = Return y -> is_fzero y = false.
Proof.
  intros Hne. destruct b as [|b|z|g|s|l]; try done; cbn [to_float].
  - apply float_of_int_nonzero. by eapply ne_int_as_int.
  - apply float_of_int_nonzero. by eapply ne_int_as_int.
  - intros [= <-]. by destruct g.
Qed.

Lemma to_float_number_raises (v : value) (e : exn) :
  is_number v = true -> to_float v = Raise e -> e = OverflowError.
Proof.
  destruct v as [|b|z|g|s|l]; try done; intros _; cbn [to_float];
    apply float_of_int_raises.
Qed.

Lemma volume_level_raise_cases (d : LGDevice) (e : exn) :
  volume_level d = Raise e ->
  ne_int (_volume_max d) 0 = true /\
  (e = TypeError /\ is_number (_volume d) && is_number (_volume_max d) = false \/
   e = OverflowError /\ is_number (_volume d) && is_number (_volume_max d) = true).
Proof.
  unfold volume_level. destruct (ne_int (_volume_max d) 0) eqn:Hne; [|done].
  intros Hraise. split; [done|]. revert Hraise. unfold truediv.
  destruct (is_number (_volume d) && is_number (_volume_max d)) eqn:Hnum;
    cbn [negb]; [|intros [= <-]; by left].
  apply andb_prop in Hnum as [Hnv Hnm]. intros Hraise. right. split; [|done].
  destruct (as_int (_volume d)) as [x|] eqn:Hx.
  - destruct (as_int (_volume_max d)) as [y|] eqn:Hy.
    + unfold int_truediv in Hraise.
      pose proof (ne_int_as_int _ _ Hne Hy) as Hy0.
      apply Z.eqb_neq in Hy0. rewrite Hy0 in Hraise.
      destruct (is_inf _); [by injection Hraise as <-|done].
    + destruct (to_float (_volume d)) as [fx|ex] eqn:Hfx;
        [|injection Hraise as <-; exact (to_float_number_raises _ _ Hnv Hfx)].
      destruct (to_float (_volume_max d)) as [fy|ey] eqn:Hfy;
        [|injection Hraise as <-; exact (to_float_number_raises _ _ Hnm Hfy)].
      by rewrite (ne_int_to_float _ _ Hne Hfy) in Hraise.
  - destruct (to_float (_volume d)) as [fx|ex] eqn:Hfx;
      [|injection Hraise as <-; exact (to_float_number_raises _ _ Hnv Hfx)].
    destruct (to_float (_volume_max d)) as [fy|ey] eqn:Hfy;
      [|injection Hraise as <-; exact (to_float_number_raises _ _ Hnm Hfy)].
    by rewrite (ne_int_to_float _ _ Hne Hfy) in Hraise.
Qed.

(** X18: [volume_level] raises [TypeError] exactly when [_volume_max]
    differs from 0 and one of [_volume] and [_volume_max] is not a number;
    the only other exception it raises is the [OverflowError] of numbers
    that have no float.  The test on [_volume_max] excludes every zero
    divisor, so [ZeroDivisionError] is never raised. *)
Theorem volume_level_raises (d : LGDevice) :
  (volume_level d = Raise TypeError <->
   ne_int (_volume_max d) 0 = true /\
   is_number (_volume d) && is_number (_volume_max d) = false) /\
  (forall e, volume_level d = Raise e -> e = TypeError \/ e = OverflowError).
Proof.
  split; [split|].
  - intros Hraise.
    destruct (volume_level_raise_cases d TypeError Hraise)
      as [Hne [[_ Hnum]|[Heq _]]]; [done|discriminate Heq].
  - intros [Hne Hnum]. unfold volume_level, truediv. by rewrite Hne, Hnum.
  - intros e Hraise.
    destruct (volume_level_raise_cases d e Hraise) as [_ [[-> _]|[-> _]]]; auto.
Qed.

(** ** The power state *)

(** X19: the power state changes only when a SPK_LIST_VIEW_INFO message
    carrying both [b_powerstatus] and [b_power_status] is handled: no
    other message and no command changes it, [turn_on] and [turn_off]
    included, which only send the request. *)
Theorem power_state_changes_by_report (functions equalisers : list string)
  (a : action) (st : state) :
  _attr_state (self (exec (run_action functions equalisers a) st))
  ≠ _attr_state (self st) ->
  exists data present status,
    a = Deliver (event SPK_LIST_VIEW_INFO data) /\
    data !! "b_powerstatus" = Some present /\
    data !! "b_power_status" = Some status.
Proof.
  destruct a as [[m payload]|c]; simpl run_action.
  - rewrite exec_handle_event_self. unfold apply_event. cbn [msg data].
    destruct (kind_of m) as [k|] eqn:Hk; [|done].
    apply kind_of_Some in Hk as ->.
    destruct k; try by rewrite apply_kind_attr_state.
    unfold apply_kind, power_step.
    destruct (payload !! "b_powerstatus") as [present|] eqn:Hp;
      [|by cbn [fst]; rewrite merge_all_attr_state].
    destruct (payload !! "b_power_status") as [status|] eqn:Hs;
      [|by cbn [fst]; rewrite merge_all_attr_state].
    intros _. by exists payload, present, status.
  - pose proof (run_command_cases functions equalisers c st) as Hc.
    destruct (result _ _); [|by rewrite Hc].
    by destruct Hc as (t & rs & _ & -> & _).
Qed.

Lemma power_state_changes_by_report_witness :
  exists data present status,
    Deliver (event SPK_LIST_VIEW_INFO power_off_payload)
    = Deliver (event SPK_LIST_VIEW_INFO data) /\
    data !! "b_powerstatus" = Some present /\
    data !! "b_power_status" = Some status.
Proof.
  apply (power_state_changes_by_report fixture_functions fixture_equalisers
           (Deliver (event SPK_LIST_VIEW_INFO power_off_payload)) fresh).
  vm_compute. discriminate.
Defined.
